(** * c-yield: generators in C over ucontext and over pthreads

    A shallow embedding of [generator.h] (the stackful backend),
    [generator_pthread.h] (the threaded backend) and of the demo programs
    [bst.c], [bst_pthread.c] and [fib_pthread.c], and the properties of the
    design document stated and settled on it.

    Conventions.
    - [int64_t], [int32_t] and [size_t] values are integers of [Z]; the only
      arithmetic of the sources, the Fibonacci sum, has its wrap-around
      written out.
    - A [generator_t*] is an [option loc]: [None] is the null pointer, and a
      location that is not allocated is a dangling pointer, whose use is
      undefined behaviour.
    - A user function ([generator_func_t]) is a resumption: the tree of its
      calls of [yield], of its reads of [self->state] and of its prints.
    - The stackful backend is a function on the state of the process, which
      holds the heap, the two output streams and the results of the libc
      calls that can fail. A switch into the generator runs its resumption
      up to the next switch back. How much of its stack a generator uses
      on the way is decided by the compiler and the platform, not by the
      sources: the process holds it as a function of the point of
      resumption, and a switch into a generator whose stack is smaller has
      undefined behaviour.
    - The threaded backend is a transition system on one generator, its
      worker thread and the thread that consumes it. A step of a thread is
      one critical section of the source or one access outside of them. A
      signal ends the wait of the thread that waits on the condition
      variable within the step that sends it; a schedule is a list of
      steps of the two threads and of spurious wake-ups, which end a wait
      without a signal. *)

From Stdlib Require Import ZArith List Bool Lia String.
From stdpp Require Import gmap strings list fin_maps.

Local Open Scope Z_scope.

(** ** Data shared by the two backends *)

(** [generator_state_t], the same enumeration in both headers. *)
Inductive generator_state_t := GEN_RUNNING | GEN_SUSPENDED | GEN_FINISHED.

#[global] Instance generator_state_eq_dec : EqDecision generator_state_t.
Proof. solve_decision. Defined.

Definition is_running (s : generator_state_t) : bool :=
  match s with GEN_RUNNING => true | _ => false end.

Definition is_suspended (s : generator_state_t) : bool :=
  match s with GEN_SUSPENDED => true | _ => false end.

Definition is_finished (s : generator_state_t) : bool :=
  match s with GEN_FINISHED => true | _ => false end.

(** One line written to stdout or stderr: the format string of the call and
    its integer arguments ([PRId64] is written [ld]). *)
Inductive printed := Printf (fmt : string) (args : list Z).

Inductive stream := to_stdout | to_stderr.

(** What a user function does with its generator: it returns, it calls
    [yield(self, value)] and goes on, it reads [self->state] and goes on
    according to what it read, or it prints a line and goes on. *)
Inductive code :=
| UReturn
| UYield (value : Z) (k : code)
| UReadState (k : generator_state_t -> code)
| UPrint (s : stream) (p : printed) (k : code).

(** Heap addresses. *)
Abbreviation loc := positive.

(** [TreeNode*] of [bst.c]: the null pointer or a node. *)
Inductive TreeNode :=
| NULL
| Node (data : Z) (left right : TreeNode).

(** [create_node] followed by the assignments of the children. *)
Definition create_node (data : Z) : TreeNode := Node data NULL NULL.

(** Writing through the [bool* done] output parameter: nothing when the
    pointer is null. *)
Definition set_done (done : option bool) (b : bool) : option bool :=
  match done with
  | None => None
  | Some _ => Some b
  end.

(** ** The stackful backend, [generator.h] *)

Module Stackful.

Section WithUserData.

(** What [void* user_data] points to. *)
Context {U : Type}.

(** The user function applied to the [user_data] it reads from [self]. *)
Definition generator_func_t : Type := U -> code.

(** A saved machine context of the generator, as far as control goes:
    where execution goes on when the context is resumed. *)
Inductive ucontext_t :=
| ctx_entry                 (* made by makecontext: generator_entry_point(gen) *)
| ctx_in_yield (k : code)   (* saved inside yield; k is the rest of the user function *)
| ctx_returned.             (* saved by generator_entry_point after the user function *)

Record generator := mk_generator {
  context : ucontext_t;
  stack : option loc;
  stack_size : Z;
  user_func : generator_func_t;
  yielded_value : Z;
  state : generator_state_t;
  user_data : U
}.

Definition set_state (s : generator_state_t) (g : generator) : generator :=
  mk_generator (context g) (stack g) (stack_size g) (user_func g)
               (yielded_value g) s (user_data g).

Definition set_yielded_value (v : Z) (g : generator) : generator :=
  mk_generator (context g) (stack g) (stack_size g) (user_func g)
               v (state g) (user_data g).

Definition set_context (c : ucontext_t) (g : generator) : generator :=
  mk_generator c (stack g) (stack_size g) (user_func g)
               (yielded_value g) (state g) (user_data g).

(** The process: the live [generator_t] blocks, the live stack blocks with
    their sizes, what was written to the two streams, and the results of
    the fallible libc calls to come ([malloc], [getcontext],
    [swapcontext]) in call order, [true] for a failure; past the end of
    the list every call succeeds. [stack_need k] is the number of bytes of
    its stack that a generator uses, at most, when it is resumed at the
    point [k] of its user function, until it switches back: the frames of
    [generator_entry_point], of the user function and of what it calls,
    as the compiler of this process lays them out. *)
Record world := mk_world {
  gens : gmap loc generator;
  stacks : gmap loc Z;
  stdout : list printed;
  stderr : list printed;
  libc_fails : list bool;
  stack_need : code -> Z
}.

Definition set_gens (h : gmap loc generator) (w : world) : world :=
  mk_world h (stacks w) (stdout w) (stderr w) (libc_fails w) (stack_need w).

Definition set_stacks (h : gmap loc Z) (w : world) : world :=
  mk_world (gens w) h (stdout w) (stderr w) (libc_fails w) (stack_need w).

Definition store (l : loc) (g : generator) (w : world) : world :=
  set_gens (<[l := g]> (gens w)) w.

Definition print_out (p : printed) (w : world) : world :=
  mk_world (gens w) (stacks w) (stdout w ++ [p]) (stderr w) (libc_fails w)
           (stack_need w).

Definition print_err (p : printed) (w : world) : world :=
  mk_world (gens w) (stacks w) (stdout w) (stderr w ++ [p]) (libc_fails w)
           (stack_need w).

Definition perror (msg : string) (w : world) : world :=
  print_err (Printf msg []) w.

(** The next fallible libc call: does it fail? *)
Definition libc_call (w : world) : bool * world :=
  match libc_fails w with
  | [] => (false, w)
  | b :: rest =>
      (b, mk_world (gens w) (stacks w) (stdout w) (stderr w) rest (stack_need w))
  end.

(** An address that no live block has. *)
Definition fresh_loc (w : world) : loc :=
  fresh (dom (gens w) ∪ dom (stacks w)).

(** The result of a call: it returns [a] in world [w], or its behaviour is
    undefined (a freed block is read, written or freed again, or a
    generator runs out of its stack), or the fuel of a loop ran out. *)
Inductive outcome (A : Type) :=
| Ok (a : A) (w : world)
| Undefined
| OutOfFuel.
Arguments Ok {A} a w.
Arguments Undefined {A}.
Arguments OutOfFuel {A}.

Definition bind {A B} (m : outcome A) (f : A -> world -> outcome B) : outcome B :=
  match m with
  | Ok a w => f a w
  | Undefined => Undefined
  | OutOfFuel => OutOfFuel
  end.

(** Reading the block of a generator pointer that is not null. *)
Definition deref (l : loc) (w : world) : outcome generator :=
  match gens w !! l with
  | Some g => Ok g w
  | None => Undefined
  end.

Definition DEFAULT_STACK_SIZE : Z := 16 * 1024.

(** [generator_create]. [func] is [None] for a null function pointer. The
    block is allocated first and its fields are written as the function
    goes on; the content of the fields that are not written yet is taken
    to be the one they get in the end. When the allocation of the stack or
    [getcontext] fails, what has been allocated is freed again. *)
Definition generator_create (func : option generator_func_t) (ud : U)
    (size : Z) (w : world) : outcome (option loc) :=
  match func with
  | None =>
      Ok None (print_err (Printf "Error: Generator function cannot be NULL.\n" []) w)
  | Some f =>
      let gen := fresh_loc w in
      let (fail_gen, w1) := libc_call w in
      if fail_gen then Ok None (perror "malloc for generator_t failed" w1)
      else
        let sz := if 0 <? size then size else DEFAULT_STACK_SIZE in
        let stk := fresh ({[gen]} ∪ dom (gens w) ∪ dom (stacks w)) in
        let w1 := store gen (mk_generator ctx_entry None sz f 0 GEN_SUSPENDED ud) w1 in
        let (fail_stack, w2) := libc_call w1 in
        if fail_stack then
          let w2 := perror "malloc for generator stack failed" w2 in
          Ok None (set_gens (delete gen (gens w2)) w2)
        else
          let g := mk_generator ctx_entry (Some stk) sz f 0 GEN_SUSPENDED ud in
          let w2 := set_stacks (<[stk := sz]> (stacks w2)) (store gen g w2) in
          let (fail_ctx, w3) := libc_call w2 in
          if fail_ctx then
            let w3 := perror "getcontext for generator failed" w3 in
            Ok None (set_gens (delete gen (gens w3))
                       (set_stacks (delete stk (stacks w3)) w3))
          else Ok (Some gen) w3
  end.

(** The outcome of a call of [yield], for the code around it. *)
Inductive yield_status :=
| yield_rejected      (* the error message was printed; yield returned at once *)
| yield_switched      (* control went back to the caller of generator_next *)
| yield_swap_failed.  (* swapcontext failed; yield returned to the user function *)

(** [yield], up to and including its [swapcontext]. *)
Definition yield (self : option loc) (value : Z) (w : world) : outcome yield_status :=
  let rejected :=
    print_err (Printf "Error: yield() called outside of a running generator context or with invalid generator.\n" []) w in
  match self with
  | None => Ok yield_rejected rejected
  | Some l =>
      bind (deref l w) (fun g w =>
        if negb (is_running (state g)) then Ok yield_rejected rejected
        else
          let w1 := store l (set_state GEN_SUSPENDED (set_yielded_value value g)) w in
          let (fails, w2) := libc_call w1 in
          if fails then
            bind (deref l w2) (fun g2 w2 =>
              Ok yield_swap_failed
                 (store l (set_state GEN_FINISHED g2)
                    (perror "swapcontext (yield -> caller) failed" w2)))
          else Ok yield_switched w2)
  end.

(** Execution on the generator's stack, from the user code [k] on, until
    control is back in [generator_next]: the user function up to its next
    successful [yield], or to its return and the rest of
    [generator_entry_point]. Whether the stack is large enough for it is
    settled by [run_on_stack] below, before the code is run. *)
Fixpoint resume (k : code) (self : loc) (w : world) : outcome unit :=
  match k with
  | UReturn =>
      bind (deref self w) (fun g w =>
        let w1 := store self (set_context ctx_returned (set_state GEN_FINISHED g)) w in
        let (fails, w2) := libc_call w1 in
        if fails then
          (* the function falls off its end and uc_link resumes the caller *)
          Ok tt (perror "swapcontext (generator finish -> caller) failed" w2)
        else Ok tt w2)
  | UYield v k' =>
      bind (yield (Some self) v w) (fun st w =>
        match st with
        | yield_switched =>
            bind (deref self w) (fun g w =>
              Ok tt (store self (set_context (ctx_in_yield k') g) w))
        | yield_rejected | yield_swap_failed => resume k' self w
        end)
  | UReadState f =>
      bind (deref self w) (fun g w => resume (f (state g)) self w)
  | UPrint s p k' =>
      resume k' self (match s with
                      | to_stdout => print_out p w
                      | to_stderr => print_err p w
                      end)
  end.

(** The user code [k] of the generator run on its stack, the block of
    [stack_size] bytes that [generator_create] has put in the context:
    when the code needs more, it writes outside of the block. *)
Definition run_on_stack (k : code) (self : loc) (w : world) : outcome unit :=
  bind (deref self w) (fun g w =>
    if stack_need w k <=? stack_size g then resume k self w else Undefined).

(** Resuming the saved context of the generator. *)
Definition switch_to_generator (self : loc) (w : world) : outcome unit :=
  bind (deref self w) (fun g w =>
    match context g with
    | ctx_entry => run_on_stack (user_func g (user_data g)) self w
    | ctx_in_yield k => run_on_stack k self w
    | ctx_returned => Ok tt w
    end).

(** [generator_next]. [done] is [None] for a null output pointer and the
    current content of [*done] otherwise; the result is the returned value
    and the new content of [*done]. *)
Definition generator_next (gen : option loc) (done : option bool) (w : world)
    : outcome (Z * option bool) :=
  match gen with
  | None => Ok (0, set_done done true) w
  | Some l =>
      bind (deref l w) (fun g w =>
        if is_finished (state g) then Ok (yielded_value g, set_done done true) w
        else
          let w1 := store l (set_state GEN_RUNNING g) w in
          let (fails, w2) := libc_call w1 in
          if fails then
            bind (deref l w2) (fun g2 w2 =>
              Ok (0, set_done done true)
                 (store l (set_state GEN_FINISHED g2)
                    (perror "swapcontext (caller -> generator) failed" w2)))
          else
            bind (switch_to_generator l w2) (fun _ w3 =>
              bind (deref l w3) (fun g3 w3 =>
                Ok (yielded_value g3, set_done done (is_finished (state g3))) w3)))
  end.

(** [free] of a stack block. *)
Definition free_stack (s : loc) (w : world) : outcome unit :=
  match stacks w !! s with
  | Some _ => Ok tt (set_stacks (delete s (stacks w)) w)
  | None => Undefined
  end.

(** [generator_destroy]. *)
Definition generator_destroy (gen : option loc) (w : world) : outcome unit :=
  match gen with
  | None => Ok tt w
  | Some l =>
      bind (deref l w) (fun g w =>
        bind (match stack g with
              | Some s => free_stack s w
              | None => Ok tt w
              end)
             (fun _ w => Ok tt (set_gens (delete l (gens w)) w)))
  end.

(** A consumer that calls [generator_next] once for each element of
    [dones], the [done] argument of the call, and collects the results. *)
Fixpoint drive (gen : option loc) (dones : list (option bool)) (w : world)
    : outcome (list (Z * option bool)) :=
  match dones with
  | [] => Ok [] w
  | d :: rest =>
      bind (generator_next gen d w) (fun r w =>
        bind (drive gen rest w) (fun rs w => Ok (r :: rs) w))
  end.

(** A consumer that calls [generator_next] until it reports the end, and
    collects the values reported before. *)
Fixpoint drain (fuel : nat) (gen : option loc) (w : world) : outcome (list Z) :=
  match fuel with
  | O => OutOfFuel
  | S fuel' =>
      bind (generator_next gen (Some false) w) (fun r w =>
        match snd r with
        | Some false => bind (drain fuel' gen w) (fun vs w => Ok (fst r :: vs) w)
        | _ => Ok [] w
        end)
  end.

End WithUserData.

Arguments generator : clear implicits.
Arguments world : clear implicits.
Arguments outcome : clear implicits.
Arguments Ok {U A} a w.
Arguments Undefined {U A}.
Arguments OutOfFuel {U A}.

End Stackful.

(** ** [bst.c]: the in-order generator and the checker, on the stackful backend *)

Module Bst.
Import Stackful.

(** [inorder_recursive_helper(self, node)], followed by [ret], what its
    caller does once it has returned. *)
Fixpoint inorder_recursive_helper (node : TreeNode) (ret : code) : code :=
  match node with
  | NULL => ret
  | Node data l r =>
      inorder_recursive_helper l
        (UReadState (fun s =>
           if negb (is_running s) then ret
           else
             UYield data
               (UReadState (fun s' =>
                  if negb (is_running s') then ret
                  else inorder_recursive_helper r ret))))
  end.

(** [bst_inorder_recursive_generator]: the root is [self->user_data]. *)
Definition bst_inorder_recursive_generator : generator_func_t (U := TreeNode) :=
  fun root => inorder_recursive_helper root UReturn.

(** The content of a [bool] variable after a call that was given its
    address. *)
Definition flag (old : bool) (done : option bool) : bool := default old done.

(** The [while (true)] loop of [check_bst_property]. Its safety break ends
    it after at most 101 comparisons, so 102 units of fuel are enough. *)
Fixpoint check_loop (fuel : nat) (gen_a gen_b : option loc)
    (finished_a finished_b : bool) (step : Z) (w : world TreeNode)
    : outcome TreeNode bool :=
  match fuel with
  | O => OutOfFuel
  | S fuel' =>
      bind (generator_next gen_b (Some finished_b) w) (fun rb w =>
      bind (generator_next gen_a (Some finished_a) w) (fun ra w =>
        let value_b := fst rb in
        let value_a := fst ra in
        let finished_b := flag finished_b (snd rb) in
        let finished_a := flag finished_a (snd ra) in
        if finished_b || finished_a then
          Ok true (print_out (Printf "One of the generators finished. All comparisons passed.\n" []) w)
        else
          let w := print_out (Printf "Step %d: Comparing A=%ld (next) with B=%ld (current)\n"
                                [step; value_a; value_b]) w in
          if value_a <=? value_b then
            Ok false (print_out (Printf "Check FAILED: %ld <= %ld. Not strictly increasing.\n"
                                   [value_a; value_b]) w)
          else
            let w := print_out (Printf "Check OK: %ld > %ld\n" [value_a; value_b]) w in
            let step := step + 1 in
            if 100 <? step then
              Ok false (print_err (Printf "Error: Safety break triggered in comparison loop.\n" []) w)
            else check_loop fuel' gen_a gen_b finished_a finished_b step w))
  end.

(** [check_bst_property]. *)
Definition check_bst_property (root : TreeNode) (w : world TreeNode)
    : outcome TreeNode bool :=
  let w := print_out (Printf "\n--- Checking BST Property ---\n" []) w in
  match root with
  | NULL => Ok true (print_out (Printf "Empty tree, property holds.\n" []) w)
  | Node _ _ _ =>
      let stack_size := 32 * 1024 in
      bind (generator_create (Some bst_inorder_recursive_generator) root stack_size w) (fun gen_a w =>
      bind (generator_create (Some bst_inorder_recursive_generator) root stack_size w) (fun gen_b w =>
        match gen_a, gen_b with
        | Some _, Some _ =>
            let w := print_out (Printf "Advancing generator A once...\n" []) w in
            bind (generator_next gen_a (Some false) w) (fun ra w =>
              if flag false (snd ra) then
                let w := print_out (Printf "Tree has 0 or 1 node. Property holds.\n" []) w in
                bind (generator_destroy gen_a w) (fun _ w =>
                bind (generator_destroy gen_b w) (fun _ w => Ok true w))
              else
                let w := print_out (Printf "Generator A first value: %ld\n" [fst ra]) w in
                let w := print_out (Printf "Starting simultaneous iteration (like zip)...\n" []) w in
                bind (check_loop 102 gen_a gen_b false false 0 w) (fun result w =>
                  let w := print_out (Printf "Cleaning up generators...\n" []) w in
                  bind (generator_destroy gen_a w) (fun _ w =>
                  bind (generator_destroy gen_b w) (fun _ w =>
                    Ok result
                       (print_out (if result
                                   then Printf "--- Check Finished (Result: true) ---\n" []
                                   else Printf "--- Check Finished (Result: false) ---\n" []) w)))))
        | _, _ =>
            let w := print_err (Printf "Failed to create generators.\n" []) w in
            bind (generator_destroy gen_a w) (fun _ w =>
            bind (generator_destroy gen_b w) (fun _ w => Ok false w))
        end))
  end.

(** The two trees of [main]. *)
Definition valid_tree : TreeNode :=
  Node 50 (Node 30 NULL (create_node 40)) (create_node 70).

Definition invalid_tree : TreeNode :=
  Node 50 (Node 30 NULL (create_node 60)) (create_node 70).

(** A process that has allocated nothing and printed nothing yet, in which
    no libc call fails and a generator uses at most 4 KB of its stack. *)
Definition start : world TreeNode := mk_world ∅ ∅ [] [] [] (fun _ => 4096).

End Bst.

(** ** The threaded backend, [generator_pthread.h] *)

Module Threaded.

Section WithUserData.

Context {U : Type}.

Definition generator_func_t : Type := U -> code.

(** The fields of [struct generator] that the two threads share. The
    thread, the mutex and the two condition variables are part of the
    [system] below. *)
Record generator := mk_generator {
  user_func : generator_func_t;
  user_data : U;
  yielded_value : Z;
  state : generator_state_t;
  value_ready : bool;
  started : bool
}.

Definition set_yielded_value (v : Z) (g : generator) : generator :=
  mk_generator (user_func g) (user_data g) v (state g) (value_ready g) (started g).

Definition set_state (s : generator_state_t) (g : generator) : generator :=
  mk_generator (user_func g) (user_data g) (yielded_value g) s (value_ready g) (started g).

Definition set_value_ready (b : bool) (g : generator) : generator :=
  mk_generator (user_func g) (user_data g) (yielded_value g) (state g) b (started g).

Definition set_started (b : bool) (g : generator) : generator :=
  mk_generator (user_func g) (user_data g) (yielded_value g) (state g) (value_ready g) b.

(** [generator_create], up to the address of the block. [fails] gives the
    results of [malloc], [pthread_mutex_init], the two [pthread_cond_init]
    and [pthread_create], in this order, [true] for a failure. The result
    is the new block, if any, and what was written to stderr. *)
Definition generator_create (func : option generator_func_t) (ud : U)
    (fails : list bool) : option generator * list printed :=
  match func with
  | None => (None, [Printf "Error: Generator function cannot be NULL.\n" []])
  | Some f =>
      if nth 0 fails false then (None, [Printf "malloc for generator_t failed" []])
      else if nth 1 fails false then (None, [Printf "pthread_mutex_init failed" []])
      else if nth 2 fails false then (None, [Printf "pthread_cond_init (yield) failed" []])
      else if nth 3 fails false then (None, [Printf "pthread_cond_init (next) failed" []])
      else if nth 4 fails false then (None, [Printf "pthread_create failed" []])
      else (Some (mk_generator f ud 0 GEN_SUSPENDED false false), [])
  end.

(** Where the worker thread is in [generator_thread_entry]. Each critical
    section of the source, from taking the mutex to releasing it or to
    waiting on a condition variable, is one step. *)
Inductive worker_pc :=
| w_entry                   (* before the lock of line 50 *)
| w_initial_wait            (* waiting on cond_yield at line 56 *)
| w_initial_woken           (* woken at line 56, taking the mutex again *)
| w_check_running           (* before the test of line 73 *)
| w_user (k : code)         (* in the user function, k left to do *)
| w_yield_wait (k : code)   (* in yield, waiting on cond_yield at line 282 *)
| w_yield_woken (k : code)  (* woken at line 282, taking the mutex again *)
| w_finalize                (* before the lock of line 82 *)
| w_exited                  (* the thread has returned or called pthread_exit *)
| w_joined.                 (* pthread_join has returned: the thread is released *)

(** A call of the consumer thread. *)
Inductive call :=
| call_next (gen : option loc) (done : option bool)
| call_destroy (gen : option loc).

(** Where the consumer thread is; [rest] is what it has to call next. *)
Inductive caller_pc :=
| c_ready (script : list call)                         (* between two calls *)
| c_next_wait (done : option bool) (rest : list call)  (* waiting on cond_next at line 190 *)
| c_next_woken (done : option bool) (rest : list call) (* woken at line 190 *)
| c_destroy_signal (rest : list call)                  (* before the signals of lines 238 and 240 *)
| c_destroy_join (rest : list call)                    (* in pthread_join at line 243 *)
| c_destroy_cleanup (rest : list call).                (* before the clean up of lines 251 to 254 *)

(** One generator, its worker thread and the thread that consumes it. *)
Record system := mk_system {
  addr : loc;                          (* where malloc put the block *)
  gen : generator;                     (* the content of the block *)
  live : bool;                         (* the block and its mutex and condition variables exist *)
  worker : worker_pc;
  caller : caller_pc;
  returned : list (Z * option bool);   (* what the calls of generator_next have returned *)
  crashed : bool;                      (* a thread has used the block after it was freed *)
  stdout : list printed;
  stderr : list printed
}.

Definition set_gen (g : generator) (c : system) : system :=
  mk_system (addr c) g (live c) (worker c) (caller c) (returned c) (crashed c)
            (stdout c) (stderr c).

Definition set_live (b : bool) (c : system) : system :=
  mk_system (addr c) (gen c) b (worker c) (caller c) (returned c) (crashed c)
            (stdout c) (stderr c).

Definition set_worker (pc : worker_pc) (c : system) : system :=
  mk_system (addr c) (gen c) (live c) pc (caller c) (returned c) (crashed c)
            (stdout c) (stderr c).

Definition set_caller (pc : caller_pc) (c : system) : system :=
  mk_system (addr c) (gen c) (live c) (worker c) pc (returned c) (crashed c)
            (stdout c) (stderr c).

Definition add_returned (r : Z * option bool) (c : system) : system :=
  mk_system (addr c) (gen c) (live c) (worker c) (caller c) (returned c ++ [r])
            (crashed c) (stdout c) (stderr c).

Definition crash (c : system) : system :=
  mk_system (addr c) (gen c) (live c) (worker c) (caller c) (returned c) true
            (stdout c) (stderr c).

Definition print (s : stream) (p : printed) (c : system) : system :=
  match s with
  | to_stdout =>
      mk_system (addr c) (gen c) (live c) (worker c) (caller c) (returned c)
                (crashed c) (stdout c ++ [p]) (stderr c)
  | to_stderr =>
      mk_system (addr c) (gen c) (live c) (worker c) (caller c) (returned c)
                (crashed c) (stdout c) (stderr c ++ [p])
  end.

(** [pthread_cond_signal(&cond_yield)]: only the worker waits on it. *)
Definition signal_cond_yield (c : system) : system :=
  match worker c with
  | w_initial_wait => set_worker w_initial_woken c
  | w_yield_wait k => set_worker (w_yield_woken k) c
  | _ => c
  end.

(** [pthread_cond_signal(&cond_next)]: only the consumer waits on it. *)
Definition signal_cond_next (c : system) : system :=
  match caller c with
  | c_next_wait d rest => set_caller (c_next_woken d rest) c
  | _ => c
  end.

(** A use of the block through the pointer [l]. *)
Definition valid (l : loc) (c : system) : bool :=
  live c && bool_decide (l = addr c).

(** The loop of lines 54 to 62 of [generator_thread_entry], from its test
    on, and lines 64 to 67 after it; the mutex is held. *)
Definition initial_loop (c : system) : system :=
  let g := gen c in
  if is_suspended (state g) && started g then set_worker w_initial_wait c
  else
    let g := if negb (is_finished (state g)) then set_state GEN_RUNNING g else g in
    set_worker w_check_running (set_gen g c).

(** [yield], lines 268 to 277: what it stores before it waits. *)
Definition yield_publish (value : Z) (g : generator) : generator :=
  set_state GEN_SUSPENDED (set_value_ready true (set_yielded_value value g)).

(** The loop of lines 189 to 191 of [generator_next], from its test on,
    and lines 195 to 216 after it; the mutex is held. *)
Definition next_loop (done : option bool) (rest : list call) (c : system) : system :=
  let g := gen c in
  if negb (value_ready g) && negb (is_finished (state g)) then
    set_caller (c_next_wait done rest) c
  else
    set_caller (c_ready rest)
      (add_returned (yielded_value g, set_done done (is_finished (state g))) c).

(** One step of the worker thread, if it can take one. *)
Definition worker_step (c : system) : option system :=
  match worker c with
  | w_entry =>
      if live c then Some (initial_loop (set_gen (set_started true (gen c)) c))
      else Some (crash c)
  | w_initial_wait => None
  | w_initial_woken =>
      if live c then
        if is_finished (state (gen c)) then Some (set_worker w_exited c)
        else Some (initial_loop c)
      else Some (crash c)
  | w_check_running =>
      if live c then
        if is_running (state (gen c))
        then Some (set_worker (w_user (user_func (gen c) (user_data (gen c)))) c)
        else Some (set_worker w_finalize c)
      else Some (crash c)
  | w_user UReturn => Some (set_worker w_finalize c)
  | w_user (UYield v k) =>
      if live c then
        Some (set_worker (w_yield_wait k)
                (signal_cond_next (set_gen (yield_publish v (gen c)) c)))
      else Some (crash c)
  | w_user (UReadState f) =>
      if live c then Some (set_worker (w_user (f (state (gen c)))) c)
      else Some (crash c)
  | w_user (UPrint s p k) => Some (set_worker (w_user k) (print s p c))
  | w_yield_wait _ => None
  | w_yield_woken k =>
      if live c then
        if is_finished (state (gen c)) then Some (set_worker w_exited c)
        else if is_suspended (state (gen c)) then Some (set_worker (w_yield_wait k) c)
        else Some (set_worker (w_user k) c)
      else Some (crash c)
  | w_finalize =>
      if live c then
        Some (set_worker w_exited
                (signal_cond_next
                   (set_gen (set_value_ready true (set_state GEN_FINISHED (gen c))) c)))
      else Some (crash c)
  | w_exited | w_joined => None
  end.

(** One step of the consumer thread, if it can take one. *)
Definition caller_step (c : system) : option system :=
  match caller c with
  | c_ready [] => None
  | c_ready (call_next None done :: rest) =>
      Some (set_caller (c_ready rest) (add_returned (0, set_done done true) c))
  | c_ready (call_next (Some l) done :: rest) =>
      if valid l c then
        let g := gen c in
        if is_finished (state g) then
          Some (set_caller (c_ready rest)
                  (add_returned (yielded_value g, set_done done true) c))
        else
          Some (next_loop done rest
                  (signal_cond_yield
                     (set_gen (set_value_ready false (set_state GEN_RUNNING g)) c)))
      else Some (crash c)
  | c_next_wait _ _ => None
  | c_next_woken done rest => Some (next_loop done rest c)
  | c_ready (call_destroy None :: rest) => Some (set_caller (c_ready rest) c)
  | c_ready (call_destroy (Some l) :: rest) =>
      if valid l c then
        let g := gen c in
        let needs_join := started g && negb (is_finished (state g)) in
        let c := set_gen (set_value_ready true (set_state GEN_FINISHED g)) c in
        Some (set_caller (if needs_join then c_destroy_signal rest
                          else c_destroy_cleanup rest) c)
      else Some (crash c)
  | c_destroy_signal rest =>
      Some (set_caller (c_destroy_join rest) (signal_cond_next (signal_cond_yield c)))
  | c_destroy_join rest =>
      match worker c with
      | w_exited => Some (set_caller (c_destroy_cleanup rest) (set_worker w_joined c))
      | _ => None
      end
  | c_destroy_cleanup rest => Some (set_caller (c_ready rest) (set_live false c))
  end.

(** What the scheduler and the condition variables may do next: let a
    thread take a step, or end the wait of a thread without a signal. *)
Inductive event := run_caller | run_worker | wake_caller | wake_worker.

Definition step (e : event) (c : system) : option system :=
  if crashed c then None
  else
    match e with
    | run_caller => caller_step c
    | run_worker => worker_step c
    | wake_caller =>
        match caller c with
        | c_next_wait d rest => Some (set_caller (c_next_woken d rest) c)
        | _ => None
        end
    | wake_worker =>
        match worker c with
        | w_initial_wait => Some (set_worker w_initial_woken c)
        | w_yield_wait k => Some (set_worker (w_yield_woken k) c)
        | _ => None
        end
    end.

(** A run: the events of the schedule in order, those that cannot happen
    left out. *)
Fixpoint exec (s : list event) (c : system) : system :=
  match s with
  | [] => c
  | e :: s' => exec s' (default c (step e c))
  end.

(** The system just after [generator_create] has returned the block [g] at
    address [a], for a consumer that goes on with [script]. *)
Definition spawn (a : loc) (g : generator) (script : list call) : system :=
  mk_system a g true w_entry (c_ready script) [] false [] [].

(** The block that a successful [generator_create] returns. *)
Definition created (f : generator_func_t) (ud : U) : generator :=
  mk_generator f ud 0 GEN_SUSPENDED false false.

(** The consumer that calls [generator_next] on [a] once for each element
    of [dones]. *)
Definition nexts (a : loc) (dones : list (option bool)) : list call :=
  map (call_next (Some a)) dones.

End WithUserData.

Arguments generator : clear implicits.
Arguments system : clear implicits.

End Threaded.

(** ** [bst_pthread.c] and [fib_pthread.c], on the threaded backend *)

Module BstPthread.
Import Threaded.

(** [inorder_recursive_helper(self, node)] of [bst_pthread.c], followed by
    [ret]; each read of [self->state] is made with the mutex held. *)
Fixpoint inorder_recursive_helper (node : TreeNode) (ret : code) : code :=
  match node with
  | NULL => ret
  | Node data l r =>
      inorder_recursive_helper l
        (UReadState (fun s =>
           if is_finished s then ret
           else
             UYield data
               (UReadState (fun s' =>
                  if is_finished s' then ret
                  else inorder_recursive_helper r ret))))
  end.

Definition bst_inorder_recursive_generator : generator_func_t (U := TreeNode) :=
  fun root => inorder_recursive_helper root UReturn.

End BstPthread.

Module FibPthread.
Import Threaded.

(** The value of an [int64_t] expression: the integer modulo [2^64], in
    [-2^63, 2^63). *)
Definition wrap64 (z : Z) : Z := (z + 2 ^ 63) mod 2 ^ 64 - 2 ^ 63.

Definition fib_finished : code :=
  UPrint to_stdout (Printf "[Fib Generator] Function finished.\n" []) UReturn.

(** The [for] loop of [fib_generator_func] with [n] iterations left, and
    the end of the function after it. *)
Fixpoint fib_loop (n : nat) (a b : Z) : code :=
  match n with
  | O => fib_finished
  | S n' =>
      UYield a
        (let next_a := b in
         let next_b := wrap64 (a + b) in
         if (next_a <? 0) || (next_b <? 0) then
           UPrint to_stderr (Printf "[Fib Generator] Overflow detected.\n" []) fib_finished
         else fib_loop n' next_a next_b)
  end.

(** [fib_generator_func]; it does not look at [self->user_data], which [main]
    leaves null. *)
Definition fib_generator_func : generator_func_t (U := unit) :=
  fun _ => fib_loop 10 1 1.

End FibPthread.

(** ** What the properties are stated with *)

(** The values that a user function gives to [yield], in order, in a run in
    which each of its reads of [self->state] finds [GEN_RUNNING]. *)
Fixpoint yielded_values (k : code) : list Z :=
  match k with
  | UReturn => []
  | UYield v k' => v :: yielded_values k'
  | UReadState f => yielded_values (f GEN_RUNNING)
  | UPrint _ _ k' => yielded_values k'
  end.

(** What successive calls of [generator_next] with the [done] arguments
    [dones] are to return for a generator that has still to yield [ys] and
    whose [yielded_value] is [last]: one value per call with the flag
    [false], and then [last] with the flag [true]. *)
Fixpoint expected (last : Z) (ys : list Z) (dones : list (option bool))
    : list (Z * option bool) :=
  match dones with
  | [] => []
  | d :: rest =>
      match ys with
      | [] => (last, set_done d true) :: expected last [] rest
      | y :: ys' => (y, set_done d false) :: expected y ys' rest
      end
  end.

(** The values of the calls that reported [finished == false]. *)
Fixpoint reported (results : list (Z * option bool)) : list Z :=
  match results with
  | [] => []
  | (v, Some false) :: rest => v :: reported rest
  | _ :: rest => reported rest
  end.

(** The direct recursive in-order traversal of a tree. *)
Fixpoint direct_inorder (t : TreeNode) : list Z :=
  match t with
  | NULL => []
  | Node data l r => direct_inorder l ++ data :: direct_inorder r
  end.

(** The keys of a tree. *)
Fixpoint keys (t : TreeNode) : list Z :=
  match t with
  | NULL => []
  | Node data l r => data :: keys l ++ keys r
  end.

(** A valid binary search tree: at each node the keys on the left are
    smaller and the keys on the right are greater. *)
Fixpoint valid_bst (t : TreeNode) : Prop :=
  match t with
  | NULL => True
  | Node data l r =>
      Forall (fun x => x < data) (keys l) /\
      Forall (fun x => data < x) (keys r) /\
      valid_bst l /\ valid_bst r
  end.

(** A strictly increasing sequence: each element is smaller than the next. *)
Fixpoint strictly_increasing (l : list Z) : Prop :=
  match l with
  | [] => True
  | x :: rest =>
      match rest with
      | [] => True
      | y :: _ => x < y /\ strictly_increasing rest
      end
  end.

(** ** Definitions used in the proofs *)

Module StackfulDefs.
Import Stackful.

Section WithUserData.

Context {U : Type}.

(** The block [g] after the user code [k] has run in it up to its first
    [yield] or to its end, when every context switch succeeds. *)
Fixpoint after (k : code) (g : generator U) : generator U :=
  match k with
  | UReturn => set_context ctx_returned (set_state GEN_FINISHED g)
  | UYield v k' =>
      set_context (ctx_in_yield k') (set_state GEN_SUSPENDED (set_yielded_value v g))
  | UReadState f => after (f GEN_RUNNING) g
  | UPrint _ _ k' => after k' g
  end.

(** The block [g] is between two calls of [generator_next] and its user
    function has still to yield [ys]. *)
Definition has_left (g : generator U) (ys : list Z) : Prop :=
  match state g with
  | GEN_SUSPENDED =>
      match context g with
      | ctx_entry => ys = yielded_values (user_func g (user_data g))
      | ctx_in_yield k => ys = yielded_values k
      | ctx_returned => False
      end
  | GEN_FINISHED => ys = []
  | GEN_RUNNING => False
  end.

(** The stack of [size] bytes is enough for each resumption of what is
    left of the user code [k] after one of its yields, in a run in which
    the yields switch and so each read of the state finds [GEN_RUNNING];
    [need] is [stack_need] of the process. *)
Fixpoint fits_after (need : code -> Z) (size : Z) (k : code) : Prop :=
  match k with
  | UReturn => True
  | UYield _ k' => need k' <= size /\ fits_after need size k'
  | UReadState f => fits_after need size (f GEN_RUNNING)
  | UPrint _ _ k' => fits_after need size k'
  end.

(** The stack of [size] bytes is enough for the user code [k], from its
    resumption at [k] to its end. *)
Definition stack_fits (need : code -> Z) (size : Z) (k : code) : Prop :=
  need k <= size /\ fits_after need size k.

(** The stack of the generator [g] is enough for what is left of its user
    function. *)
Definition stack_suffices (need : code -> Z) (g : generator U) : Prop :=
  match state g with
  | GEN_FINISHED => True
  | GEN_RUNNING | GEN_SUSPENDED =>
      match context g with
      | ctx_entry => stack_fits need (stack_size g) (user_func g (user_data g))
      | ctx_in_yield k => stack_fits need (stack_size g) k
      | ctx_returned => True
      end
  end.

(** The stack size that [generator_create] settles on, for a [size_t]
    argument. *)
Definition chosen_stack_size (size : Z) : Z :=
  if size =? 0 then DEFAULT_STACK_SIZE else size.

End WithUserData.

End StackfulDefs.


Module ThreadedDefs.
Import Threaded.

Section WithUserData.

Context {U : Type}.

(** The values that the user function of [g] yields in all. *)
Definition whole (g : generator U) : list Z :=
  yielded_values (user_func g (user_data g)).

(** [E] lists the results of all the calls of the consumer; the calls
    that have returned have given its first elements, and the generator
    has still [ys] to yield to the calls [ds]. *)
Definition pending (E : list (Z * option bool)) (c : system U)
    (ys : list Z) (ds : list (option bool)) : Prop :=
  E = returned c ++ expected (yielded_value (gen c)) ys ds.

(** The same when the worker has already stored the result of the call in
    progress, whose [done] argument is [d]. *)
Definition handed (E : list (Z * option bool)) (c : system U) (fin : bool)
    (ys : list Z) (d : option bool) (ds : list (option bool)) : Prop :=
  E = returned c
        ++ (yielded_value (gen c), set_done d fin)
           :: expected (yielded_value (gen c)) ys ds.

(** The invariant of a generator that is consumed by calls of
    [generator_next] only: which pairs of places the two threads can be
    at, and what the shared fields are there. *)
Definition inv (E : list (Z * option bool)) (c : system U) : Prop :=
  live c = true /\ crashed c = false /\
  let g := gen c in
  match caller c with
  | c_ready script =>
      exists ds, script = nexts (addr c) ds /\
      match worker c with
      | w_entry => state g = GEN_SUSPENDED /\ pending E c (whole g) ds
      | w_initial_wait | w_initial_woken =>
          state g = GEN_SUSPENDED /\ started g = true /\ pending E c (whole g) ds
      | w_yield_wait k | w_yield_woken k =>
          state g = GEN_SUSPENDED /\ started g = true /\
          pending E c (yielded_values k) ds
      | w_exited =>
          state g = GEN_FINISHED /\ started g = true /\ pending E c [] ds
      | w_check_running | w_user _ | w_finalize | w_joined => False
      end
  | c_next_wait d script | c_next_woken d script =>
      exists ds, script = nexts (addr c) ds /\
      match worker c with
      | w_entry =>
          state g = GEN_RUNNING /\ value_ready g = false /\
          pending E c (whole g) (d :: ds)
      | w_initial_woken | w_check_running =>
          state g = GEN_RUNNING /\ value_ready g = false /\ started g = true /\
          pending E c (whole g) (d :: ds)
      | w_user k =>
          state g = GEN_RUNNING /\ value_ready g = false /\ started g = true /\
          pending E c (yielded_values k) (d :: ds)
      | w_yield_woken k =>
          started g = true /\
          ((state g = GEN_RUNNING /\ value_ready g = false /\
            pending E c (yielded_values k) (d :: ds)) \/
           (state g = GEN_SUSPENDED /\ value_ready g = true /\
            handed E c false (yielded_values k) d ds))
      | w_yield_wait k =>
          started g = true /\ state g = GEN_SUSPENDED /\ value_ready g = true /\
          handed E c false (yielded_values k) d ds
      | w_finalize =>
          state g = GEN_RUNNING /\ value_ready g = false /\ started g = true /\
          pending E c [] (d :: ds)
      | w_exited =>
          state g = GEN_FINISHED /\ value_ready g = true /\ started g = true /\
          handed E c true [] d ds
      | w_initial_wait | w_joined => False
      end
  | c_destroy_signal _ | c_destroy_join _ | c_destroy_cleanup _ => False
  end.

(** A consumer that waits in [generator_next] and has not been woken
    waits for a value that is not there yet: the signal that follows the
    value has not been missed. *)
Definition waits_unready (c : system U) : Prop :=
  match caller c with
  | c_next_wait _ _ => value_ready (gen c) = false
  | _ => True
  end.

(** How far the user function is, counted against the calls that have
    returned: [ys] is what it yields in all, and each call that returns
    [finished == false] has taken one of these values. *)
Definition counted (ys : list Z) (c : system U) : Prop :=
  whole (gen c) = ys /\
  let n := length (returned c) in
  match caller c with
  | c_ready _ =>
      match worker c with
      | w_entry | w_initial_wait | w_initial_woken => n = 0%nat
      | w_yield_wait k | w_yield_woken k =>
          (length (yielded_values k) + n = length ys)%nat
      | w_exited => (length ys < n)%nat
      | w_check_running | w_user _ | w_finalize | w_joined => True
      end
  | c_next_wait _ _ | c_next_woken _ _ =>
      match worker c with
      | w_entry | w_initial_wait | w_initial_woken | w_check_running => n = 0%nat
      | w_user k => (length (yielded_values k) + n = length ys)%nat
      | w_yield_woken k =>
          if value_ready (gen c)
          then (length (yielded_values k) + n + 1 = length ys)%nat
          else (length (yielded_values k) + n = length ys)%nat
      | w_yield_wait k => (length (yielded_values k) + n + 1 = length ys)%nat
      | w_finalize | w_exited => (length ys <= n)%nat
      | w_joined => True
      end
  | c_destroy_signal _ | c_destroy_join _ | c_destroy_cleanup _ => True
  end.

(** A schedule without spurious wake-ups: a waiting thread goes on only
    when it is signalled. *)
Definition no_spurious_wake (s : list event) : Prop :=
  Forall (fun e => e = run_caller \/ e = run_worker) s.

(** The systems that a consumer that only calls [generator_next] can be
    in: those that some run reaches from a generator just created. *)
Definition reachable (c : system U) : Prop :=
  exists (f : U -> code) (ud : U) (a : loc) (ds : list (option bool))
         (s : list event),
    c = exec s (spawn a (created f ud) (nexts a ds)).



(** A generator between two calls whose worker has got to its first
    wait at least: the worker waits for the first call, or waits in
    [yield], or has finished. *)
Definition quiescent (c : system U) : Prop :=
  live c = true /\ crashed c = false /\ started (gen c) = true /\
  match worker c with
  | w_initial_wait | w_initial_woken | w_yield_wait _ | w_yield_woken _ =>
      state (gen c) = GEN_SUSPENDED
  | w_exited => state (gen c) = GEN_FINISHED
  | w_entry | w_check_running | w_user _ | w_finalize | w_joined => False
  end.

(** The state of the worker thread when [generator_destroy] has done with
    it: joined when the call had to join it ([joins]), and left as it
    was, exited and not joined, when it had finished by itself. *)
Definition released (joins : bool) : worker_pc :=
  if joins then w_joined else w_exited.

(** The invariant of [generator_destroy] called on a quiescent generator
    by a consumer that does nothing more afterwards; [joins] tells whether
    the generator was not finished when the call was made. *)
Definition destroy_inv (joins : bool) (c : system U) : Prop :=
  crashed c = false /\
  match caller c with
  | c_ready [call_destroy (Some l)] =>
      l = addr c /\ quiescent c /\ joins = negb (is_finished (state (gen c)))
  | c_ready [] => live c = false /\ worker c = released joins
  | c_destroy_signal [] =>
      joins = true /\ live c = true /\ state (gen c) = GEN_FINISHED /\
      match worker c with
      | w_initial_wait | w_initial_woken | w_yield_wait _ | w_yield_woken _
      | w_exited => True
      | w_entry | w_check_running | w_user _ | w_finalize | w_joined => False
      end
  | c_destroy_join [] =>
      joins = true /\ live c = true /\ state (gen c) = GEN_FINISHED /\
      match worker c with
      | w_initial_woken | w_yield_woken _ | w_exited => True
      | w_initial_wait | w_yield_wait _
      | w_entry | w_check_running | w_user _ | w_finalize | w_joined => False
      end
  | c_destroy_cleanup [] => live c = true /\ worker c = released joins
  | _ => False
  end.

End WithUserData.

End ThreadedDefs.

(** ** Concrete generators and systems *)

Module Examples.

(** A user function that yields 7 and returns. *)
Definition yield_seven : unit -> code := fun _ => UYield 7 UReturn.

(** The schedule that lets the consumer and the worker take [n] steps each,
    in turn. *)
Definition alternate (n : nat) : list Threaded.event :=
  concat (repeat [Threaded.run_caller; Threaded.run_worker] n).

(** A user function that yields 7, then 8, and returns. *)
Definition yield_two : unit -> code := fun _ => UYield 7 (UYield 8 UReturn).

(** A process of the stackful backend with nothing allocated, in which no
    libc call fails and a generator uses at most 4 KB of its stack. *)
Definition empty : Stackful.world unit :=
  Stackful.mk_world ∅ ∅ [] [] [] (fun _ => 4096).

(** The same process when the libc calls to come have the results
    [fails]. *)
Definition empty_failing (fails : list bool) : Stackful.world unit :=
  Stackful.mk_world ∅ ∅ [] [] fails (fun _ => 4096).

(** A process of [bst.c] with nothing allocated, whose libc calls to come
    have the results [fails], and in which a generator uses at most 4 KB
    of its stack. *)
Definition bst_failing (fails : list bool) : Stackful.world TreeNode :=
  Stackful.mk_world ∅ ∅ [] [] fails (fun _ => 4096).



(** A suspended generator of the stackful backend that has not started. *)
Definition suspended_generator : Stackful.generator unit :=
  Stackful.mk_generator Stackful.ctx_entry (Some 2%positive) 16384
    yield_seven 0 GEN_SUSPENDED tt.

Definition suspended_world : Stackful.world unit :=
  Stackful.mk_world {[1%positive := suspended_generator]} {[2%positive := 16384]} [] [] []
    (fun _ => 4096).

(** The threaded generator of [yield_seven] at address 1, just created, for
    a consumer that makes the calls of [script]. *)
Definition seven_system (script : list Threaded.call) : Threaded.system unit :=
  Threaded.spawn 1 (Threaded.created yield_seven tt) script.

(** The Fibonacci generator of [fib_pthread.c] at address 1, just created,
    for a consumer that calls [generator_next] 11 times. *)
Definition fib_system : Threaded.system unit :=
  Threaded.spawn 1 (Threaded.created FibPthread.fib_generator_func tt)
    (Threaded.nexts 1 (repeat (Some false) 11)).

(** The tree of the keys [k], [k + 1], ... ([n] of them), each the right
    child of the one before: a valid binary search tree. *)
Fixpoint chain (n : nat) (k : Z) : TreeNode :=
  match n with
  | O => NULL
  | S n' => Node k NULL (chain n' (k + 1))
  end.

End Examples.

(** ** Further definitions for the properties of the code *)

Module StackfulMore.
Import Stackful.

Section WithUserData.

Context {U : Type}.

(** A generator as its consumer finds it between two calls: it is not
    running, and the context saved at the end of [generator_entry_point] is
    that of a finished generator only. *)
Definition between_calls (g : generator U) : Prop :=
  state g <> GEN_RUNNING /\
  (context g = ctx_returned -> state g = GEN_FINISHED).

(** What no operation on a generator changes once it is created. *)
Definition same_resources (g g' : generator U) : Prop :=
  stack g' = stack g /\ stack_size g' = stack_size g /\
  user_func g' = user_func g /\ user_data g' = user_data g.

End WithUserData.

End StackfulMore.

Module MoreExamples.

(** The process of [Examples.suspended_world] with the results [fails] of
    its libc calls to come. *)
Definition failing_world (fails : list bool) : Stackful.world unit :=
  Stackful.mk_world {[1%positive := Examples.suspended_generator]}
    {[2%positive := 16384]} [] [] fails (fun _ => 4096).

(** The same process when the generator was created with a stack of 64
    bytes, less than the 4 KB that a generator uses. *)
Definition small_stack_world (fails : list bool) : Stackful.world unit :=
  Stackful.mk_world
    {[1%positive := Stackful.mk_generator Stackful.ctx_entry (Some 2%positive) 64
                      Examples.yield_seven 0 GEN_SUSPENDED tt]}
    {[2%positive := 64]} [] [] fails (fun _ => 4096).

(** A process of [bst.c] with one generator at address 1 that has finished
    with the value 30, and its stack at address 2. *)
Definition finished_traversal : Stackful.world TreeNode :=
  Stackful.mk_world
    {[1%positive := Stackful.mk_generator Stackful.ctx_returned (Some 2%positive)
                      32768 Bst.bst_inorder_recursive_generator 30 GEN_FINISHED
                      Bst.valid_tree]}
    {[2%positive := 32768]} [] [] [] (fun _ => 4096).

(** The threaded generator of one [yield(7)] after one call of
    [generator_next], its worker waiting in [yield], for a consumer that
    calls [generator_destroy] next. *)
Definition waiting_in_yield : Threaded.system unit :=
  Threaded.set_caller (Threaded.c_ready [Threaded.call_destroy (Some 1%positive)])
    (Threaded.exec (Examples.alternate 4)
       (Examples.seven_system (Threaded.nexts 1 [Some false]))).

(** A system of [bst_pthread.c] whose generator is finished while its
    worker is about to enter the helper on the valid tree of [main]. *)
Definition finished_in_helper : Threaded.system TreeNode :=
  Threaded.mk_system 1
    (Threaded.mk_generator BstPthread.bst_inorder_recursive_generator Bst.valid_tree
       0 GEN_FINISHED true true)
    true (Threaded.w_user (BstPthread.inorder_recursive_helper Bst.valid_tree UReturn))
    (Threaded.c_ready []) [] false [] [].

End MoreExamples.

Module ThreadedMore.
Import Threaded.

Section WithUserData.

Context {U : Type}.

(** The worker thread is between its waits: it is about to enter the user
    function, in it, or about to finish. *)
Definition worker_active (pc : worker_pc) : bool :=
  match pc with
  | w_check_running | w_user _ | w_finalize => true
  | w_entry | w_initial_wait | w_initial_woken | w_yield_wait _ | w_yield_woken _
  | w_exited | w_joined => false
  end.

(** The consumer thread is in the wait loop of [generator_next]. *)
Definition consumer_in_next (pc : caller_pc) : bool :=
  match pc with
  | c_next_wait _ _ | c_next_woken _ _ => true
  | c_ready _ | c_destroy_signal _ | c_destroy_join _ | c_destroy_cleanup _ => false
  end.

(** The consumer that goes on with the calls of [tail] after those it has
    to make. *)
Definition then_calls (tail : list call) (pc : caller_pc) : caller_pc :=
  match pc with
  | c_ready script => c_ready (script ++ tail)
  | c_next_wait d rest => c_next_wait d (rest ++ tail)
  | c_next_woken d rest => c_next_woken d (rest ++ tail)
  | c_destroy_signal rest => c_destroy_signal (rest ++ tail)
  | c_destroy_join rest => c_destroy_join (rest ++ tail)
  | c_destroy_cleanup rest => c_destroy_cleanup (rest ++ tail)
  end.

Definition with_tail (tail : list call) (c : system U) : system U :=
  set_caller (then_calls tail (caller c)) c.

End WithUserData.

End ThreadedMore.


(** ** Properties of the sequences *)

Lemma yielded_values_bst t : forall k,
  yielded_values (Bst.inorder_recursive_helper t k)
  = direct_inorder t ++ yielded_values k.
Proof.
  induction t as [|data l IHl r IHr]; intros k; simpl; [reflexivity|].
  rewrite IHl. simpl. rewrite IHr, <- app_assoc. reflexivity.
Qed.

Lemma yielded_values_bst_pthread t : forall k,
  yielded_values (BstPthread.inorder_recursive_helper t k)
  = direct_inorder t ++ yielded_values k.
Proof.
  induction t as [|data l IHl r IHr]; intros k; simpl; [reflexivity|].
  rewrite IHl. simpl. rewrite IHr, <- app_assoc. reflexivity.
Qed.

Lemma yielded_values_bst_generator t :
  yielded_values (Bst.bst_inorder_recursive_generator t) = direct_inorder t.
Proof.
  unfold Bst.bst_inorder_recursive_generator.
  rewrite yielded_values_bst. simpl. apply app_nil_r.
Qed.

Lemma yielded_values_bst_pthread_generator t :
  yielded_values (BstPthread.bst_inorder_recursive_generator t) = direct_inorder t.
Proof.
  unfold BstPthread.bst_inorder_recursive_generator.
  rewrite yielded_values_bst_pthread. simpl. apply app_nil_r.
Qed.

(** The values reported by a consumer that passes a [done] pointer and
    calls at least once more than there are values. *)
Lemma reported_expected ys : forall last n,
  reported (expected last ys (repeat (Some false) (length ys + n))) = ys.
Proof.
  induction ys as [|y ys IH]; intros last n; simpl.
  - induction n as [|n IHn]; simpl; auto.
  - rewrite IH. reflexivity.
Qed.

Lemma last_cons_default (l : list Z) : forall x d d',
  List.last (x :: l) d = List.last (x :: l) d'.
Proof.
  induction l as [|y l IH]; intros x d d'; [reflexivity|].
  change (List.last (y :: l) d = List.last (y :: l) d'). apply IH.
Qed.

Lemma expected_enough ys : forall last n,
  expected last ys (repeat (Some false) (length ys + n))
  = map (fun y => (y, Some false)) ys ++ repeat (List.last ys last, Some true) n.
Proof.
  induction ys as [|y ys IH]; intros last n.
  - simpl. induction n as [|n IHn]; simpl; [reflexivity|]. rewrite IHn. reflexivity.
  - cbn [length Nat.add repeat expected set_done map app]. rewrite IH.
    destruct ys as [|z ys]; [reflexivity|].
    change (List.last (y :: z :: ys) last) with (List.last (z :: ys) last).
    rewrite (last_cons_default ys z y last). reflexivity.
Qed.

(** The keys of a tree are the elements of its in-order sequence. *)
Lemma keys_inorder t x : x ∈ keys t <-> x ∈ direct_inorder t.
Proof.
  rewrite !list_elem_of_In.
  induction t as [|data l IHl r IHr]; simpl; [tauto|].
  rewrite !in_app_iff. simpl. rewrite IHl, IHr. tauto.
Qed.

Lemma strictly_increasing_cons x l :
  strictly_increasing (x :: l) <->
  strictly_increasing l /\ match l with [] => True | y :: _ => x < y end.
Proof. destruct l; simpl; tauto. Qed.

(** A strictly increasing sequence is below all of its later elements. *)
Lemma strictly_increasing_head x l :
  strictly_increasing (x :: l) -> Forall (fun y => x < y) l.
Proof.
  revert x. induction l as [|y l IH]; intros x H; constructor.
  - apply H.
  - destruct H as [Hxy H]. specialize (IH y H).
    eapply Forall_impl; [exact IH|]. simpl. intros; lia.
Qed.

Lemma strictly_increasing_app l1 : forall x l2,
  strictly_increasing (l1 ++ x :: l2) <->
  strictly_increasing l1 /\ strictly_increasing l2 /\
  Forall (fun y => y < x) l1 /\ Forall (fun y => x < y) l2.
Proof.
  induction l1 as [|a l1 IH]; intros x l2.
  - simpl. split.
    + intros H. repeat split; auto.
      * destruct l2; [exact I|apply H].
      * apply strictly_increasing_head, H.
    + intros (_ & H2 & _ & H). destruct l2; [exact I|].
      split; [|exact H2]. inversion H; assumption.
  - cbn [app]. rewrite strictly_increasing_cons, IH, strictly_increasing_cons.
    split.
    + intros ((H1 & H2 & H3 & H4) & Ha). repeat split; auto.
      * destruct l1; [exact I|exact Ha].
      * constructor; [|exact H3].
        destruct l1; simpl in Ha; [exact Ha|]. inversion H3; subst. lia.
    + intros ((H1 & Ha) & H2 & H3 & H4). inversion H3; subst.
      repeat split; auto. destruct l1; simpl; assumption.
Qed.

(** A tree is a valid binary search tree if and only if its in-order
    sequence is strictly increasing. *)
Lemma valid_bst_inorder t : valid_bst t <-> strictly_increasing (direct_inorder t).
Proof.
  induction t as [|data l IHl r IHr]; simpl; [tauto|].
  rewrite strictly_increasing_app, IHl, IHr, !Forall_forall.
  split.
  - intros (H1 & H2 & H3 & H4). repeat split; auto.
    + intros x Hx. apply H1, keys_inorder, Hx.
    + intros x Hx. apply H2, keys_inorder, Hx.
  - intros (H1 & H2 & H3 & H4). repeat split; auto.
    + intros x Hx. apply H3, keys_inorder, Hx.
    + intros x Hx. apply H4, keys_inorder, Hx.
Qed.
(** ** Properties of the stackful backend *)

Module StackfulFacts.
Import Stackful StackfulDefs.

Section WithUserData.

Context {U : Type}.
Implicit Types (w : world U) (g : generator U) (l : loc).

Lemma libc_call_ok w : libc_fails w = [] -> libc_call w = (false, w).
Proof. unfold libc_call. intros ->. reflexivity. Qed.

Lemma deref_live l w g : gens w !! l = Some g -> deref l w = Ok g w.
Proof. unfold deref. intros ->. reflexivity. Qed.

(** Running user code in a generator that is [GEN_RUNNING] gives the
    control back with the block as [after] says. *)
Lemma resume_running k : forall l w g,
  gens w !! l = Some g -> state g = GEN_RUNNING -> libc_fails w = [] ->
  exists w',
    resume k l w = Ok tt w' /\
    gens w' = <[l := after k g]> (gens w) /\
    stacks w' = stacks w /\ libc_fails w' = [] /\
    stack_need w' = stack_need w.
Proof.
  induction k as [|v k IH|f IH|s p k IH]; intros l w g Hl Hrun Hok; simpl.
  - rewrite (deref_live _ _ _ Hl). simpl.
    rewrite libc_call_ok by exact Hok.
    eexists. split; [reflexivity|]. simpl. auto.
  - rewrite (deref_live _ _ _ Hl). simpl. rewrite Hrun. simpl.
    rewrite libc_call_ok by exact Hok. simpl.
    unfold deref. simpl. rewrite lookup_insert_eq. simpl.
    eexists. split; [reflexivity|]. simpl.
    rewrite insert_insert_eq. auto.
  - rewrite (deref_live _ _ _ Hl). simpl. rewrite Hrun.
    apply IH; assumption.
  - destruct s.
    + destruct (IH l (print_out p w) g) as (w' & ? & ? & ? & ? & ?); auto.
      exists w'. auto 10.
    + destruct (IH l (print_err p w) g) as (w' & ? & ? & ? & ? & ?); auto.
      exists w'. auto 10.
Qed.

Lemma after_has_left k : forall g,
  has_left (after k g) (tail (yielded_values k)) /\
  yielded_value (after k g)
    = match yielded_values k with [] => yielded_value g | y :: _ => y end /\
  is_finished (state (after k g))
    = match yielded_values k with [] => true | _ :: _ => false end /\
  stack (after k g) = stack g.
Proof.
  induction k as [|v k IH|f IH|s p k IH]; intros g; simpl; auto.
  all: repeat split.
Qed.

(** The stack that is enough for the code [k] is enough for the block
    that [k] leaves when it has run up to its first [yield]. *)
Lemma after_suffices need k : forall g,
  fits_after need (stack_size g) k -> stack_suffices need (after k g).
Proof.
  induction k as [|v k IH|f IH|s p k IH]; intros g Hfit; simpl in *; auto.
Qed.

Lemma after_stack_size k : forall g, stack_size (after k g) = stack_size g.
Proof. induction k as [|v k IH|f IH|s p k IH]; intros g; simpl; auto. Qed.

(** The user code [k] run on the stack of a generator that is
    [GEN_RUNNING], when the stack is enough for it. *)
Lemma run_on_stack_running k l w g :
  gens w !! l = Some g -> state g = GEN_RUNNING -> libc_fails w = [] ->
  stack_need w k <= stack_size g ->
  exists w',
    run_on_stack k l w = Ok tt w' /\
    gens w' = <[l := after k g]> (gens w) /\
    stacks w' = stacks w /\ libc_fails w' = [] /\
    stack_need w' = stack_need w.
Proof.
  intros Hl Hrun Hok Hfit. unfold run_on_stack.
  rewrite (deref_live _ _ _ Hl). cbn [bind].
  destruct (Z.leb_spec (stack_need w k) (stack_size g)); [|lia].
  apply resume_running; assumption.
Qed.

(** One call of [generator_next] between two calls: it returns what
    [expected] says and leaves the generator one value further. *)
Lemma generator_next_has_left l w g ys d :
  gens w !! l = Some g -> has_left g ys -> libc_fails w = [] ->
  stack_suffices (stack_need w) g ->
  exists w' g',
    generator_next (Some l) d w
      = Ok (match ys with
            | [] => (yielded_value g, set_done d true)
            | y :: _ => (y, set_done d false)
            end) w' /\
    gens w' = <[l := g']> (gens w) /\
    stacks w' = stacks w /\ libc_fails w' = [] /\
    has_left g' (tail ys) /\
    yielded_value g' = match ys with [] => yielded_value g | y :: _ => y end /\
    stack g' = stack g /\
    stack_need w' = stack_need w /\ stack_suffices (stack_need w) g'.
Proof.
  intros Hl Hleft Hok Hfit. unfold generator_next.
  rewrite (deref_live _ _ _ Hl). simpl.
  unfold has_left in Hleft. unfold stack_suffices in Hfit.
  destruct (state g) eqn:Hst; simpl; [contradiction| |].
  - rewrite libc_call_ok by exact Hok.
    assert (Hres : forall k, ys = yielded_values k ->
              stack_fits (stack_need w) (stack_size g) k ->
              exists w' g',
                bind (run_on_stack k l (store l (set_state GEN_RUNNING g) w))
                  (fun _ w3 => bind (deref l w3) (fun g3 w3 =>
                     Ok (yielded_value g3, set_done d (is_finished (state g3))) w3))
                = Ok (match ys with
                      | [] => (yielded_value g, set_done d true)
                      | y :: _ => (y, set_done d false)
                      end) w' /\
                gens w' = <[l := g']> (gens w) /\
                stacks w' = stacks w /\ libc_fails w' = [] /\
                has_left g' (tail ys) /\
                yielded_value g'
                  = match ys with [] => yielded_value g | y :: _ => y end /\
                stack g' = stack g /\
                stack_need w' = stack_need w /\ stack_suffices (stack_need w) g').
    { intros k -> [Hneed Hafter].
      destruct (run_on_stack_running k l (store l (set_state GEN_RUNNING g) w)
                  (set_state GEN_RUNNING g)) as (w' & E & Hg & Hs & Hf & Hn);
        [apply lookup_insert_eq|reflexivity|exact Hok|exact Hneed|].
      simpl in Hg. rewrite insert_insert_eq in Hg.
      destruct (after_has_left k (set_state GEN_RUNNING g)) as (H1 & H2 & H3 & H4).
      pose proof (after_suffices (stack_need w) k (set_state GEN_RUNNING g) Hafter) as H5.
      exists w', (after k (set_state GEN_RUNNING g)).
      rewrite E. simpl. unfold deref. rewrite Hg, lookup_insert_eq. simpl.
      rewrite H2, H3. simpl in *.
      destruct (yielded_values k); auto 12. }
    unfold switch_to_generator.
    unfold deref at 1. simpl. rewrite lookup_insert_eq. simpl.
    destruct (context g) eqn:Hctx; [| |contradiction]; apply Hres; assumption.
  - subst ys. exists w, g. rewrite insert_id by exact Hl.
    unfold has_left, stack_suffices. rewrite Hst. auto 12.
Qed.

(** A consumer that calls [generator_next] again and again gets what
    [expected] says. *)
Lemma drive_has_left l ds : forall w g ys,
  gens w !! l = Some g -> has_left g ys -> libc_fails w = [] ->
  stack_suffices (stack_need w) g ->
  exists w', drive (Some l) ds w = Ok (expected (yielded_value g) ys ds) w'.
Proof.
  induction ds as [|d ds IH]; intros w g ys Hl Hleft Hok Hfit; cbn [drive expected].
  - eauto.
  - destruct (generator_next_has_left l w g ys d Hl Hleft Hok Hfit)
      as (w' & g' & E & Hg & _ & Hf & Hleft' & Hv & _ & Hn & Hfit').
    rewrite E. cbn [bind].
    destruct (IH w' g' (tail ys)) as (w'' & E'); auto.
    { rewrite Hg. apply lookup_insert_eq. }
    { rewrite Hn. exact Hfit'. }
    rewrite E'. cbn [bind]. rewrite Hv.
    destruct ys; simpl; eauto.
Qed.

Lemma fresh_loc_gens w : gens w !! fresh_loc w = None.
Proof.
  apply not_elem_of_dom. unfold fresh_loc.
  pose proof (is_fresh (dom (gens w) ∪ dom (stacks w))). set_solver.
Qed.

Lemma fresh_stack_loc w :
  let stk := fresh ({[fresh_loc w]} ∪ dom (gens w) ∪ dom (stacks w)) in
  stacks w !! stk = None /\ gens w !! stk = None /\ stk <> fresh_loc w.
Proof.
  intros stk.
  pose proof (is_fresh ({[fresh_loc w]} ∪ dom (gens w) ∪ dom (stacks w))) as H.
  fold stk in H.
  repeat split; [apply not_elem_of_dom|apply not_elem_of_dom|]; set_solver.
Qed.

(** What [generator_create] does, in every process: it fails and leaves
    the heap as it was, or it returns a fresh suspended generator whose
    stack is a fresh block of the chosen size. *)
Lemma generator_create_cases f ud size w :
  0 <= size ->
  (exists w', generator_create (Some f) ud size w = Ok None w' /\
              gens w' = gens w /\ stacks w' = stacks w /\
              (exists b, In b (firstn 3 (libc_fails w)) /\ b = true)) \/
  (exists l stk w',
     generator_create (Some f) ud size w = Ok (Some l) w' /\
     gens w !! l = None /\ stacks w !! stk = None /\ l <> stk /\
     gens w' = <[l := mk_generator ctx_entry (Some stk) (chosen_stack_size size)
                        f 0 GEN_SUSPENDED ud]> (gens w) /\
     stacks w' = <[stk := chosen_stack_size size]> (stacks w) /\
     libc_fails w' = skipn 3 (libc_fails w) /\
     stderr w' = stderr w /\ stdout w' = stdout w /\
     stack_need w' = stack_need w).
Proof.
  intros Hsize. unfold generator_create, libc_call.
  assert (Hsz : (if 0 <? size then size else DEFAULT_STACK_SIZE)
                = chosen_stack_size size).
  { unfold chosen_stack_size.
    destruct (Z.ltb_spec 0 size), (Z.eqb_spec size 0); lia. }
  rewrite Hsz.
  destruct (fresh_stack_loc w) as (Hs & Hg & Hne).
  pose proof (fresh_loc_gens w) as Hl.
  unfold fresh_loc in *.
  destruct w as [gs ss so se lf nd]; simpl in *.
  destruct lf as [|[] [|[] [|[] rest]]]; simpl.
  all: try (left; eexists; split; [reflexivity|]; simpl;
            rewrite ?insert_insert_eq, ?delete_insert_id by assumption;
            repeat split; eexists; split; [|reflexivity]; simpl; tauto).
  all: right;
    exists (fresh (dom gs ∪ dom ss)),
           (fresh ({[fresh (dom gs ∪ dom ss)]} ∪ dom gs ∪ dom ss));
    eexists; split; [reflexivity|]; simpl;
    rewrite ?insert_insert_eq; auto 12.
Qed.

(** When no libc call fails, [generator_create] succeeds, and the new
    generator has all of its user function left to do. *)
Lemma generator_create_ok f ud size w :
  libc_fails w = [] -> 0 <= size ->
  stack_fits (stack_need w) (chosen_stack_size size) (f ud) ->
  exists l w' g,
    generator_create (Some f) ud size w = Ok (Some l) w' /\
    gens w' !! l = Some g /\ has_left g (yielded_values (f ud)) /\
    yielded_value g = 0 /\ libc_fails w' = [] /\
    stack_need w' = stack_need w /\ stack_suffices (stack_need w) g.
Proof.
  intros Hok Hsize Hfit.
  destruct (generator_create_cases f ud size w Hsize)
    as [(w' & _ & _ & _ & b & Hb & ->)
       |(l & stk & w' & E & _ & _ & _ & Hg & _ & Hf & _ & _ & Hn)].
  { rewrite Hok in Hb. destruct Hb. }
  exists l, w'. eexists. split; [exact E|].
  rewrite Hg, lookup_insert_eq. split; [reflexivity|].
  rewrite Hf, Hok. split; [reflexivity|]. split; [reflexivity|].
  split; [reflexivity|]. split; [exact Hn|exact Hfit].
Qed.

Lemma drain_S fuel gen w :
  drain (S fuel) gen w
  = bind (generator_next gen (Some false) w) (fun r w =>
      match snd r with
      | Some false => bind (drain fuel gen w) (fun vs w => Ok (fst r :: vs) w)
      | _ => Ok [] w
      end).
Proof. reflexivity. Qed.

(** A consumer that goes on until the end is reported gets the values
    that were left, given one unit of fuel per call. *)
Lemma drain_has_left l ys : forall n w g,
  gens w !! l = Some g -> has_left g ys -> libc_fails w = [] ->
  stack_suffices (stack_need w) g ->
  exists w', drain (S (length ys) + n) (Some l) w = Ok ys w'.
Proof.
  induction ys as [|y ys IH]; intros n w g Hl Hleft Hok Hfit.
  - destruct (generator_next_has_left l w g [] (Some false) Hl Hleft Hok Hfit)
      as (w' & g' & E & _).
    cbn [length Nat.add]. rewrite drain_S, E. simpl. eauto.
  - destruct (generator_next_has_left l w g (y :: ys) (Some false) Hl Hleft Hok Hfit)
      as (w' & g' & E & Hg & _ & Hf & Hleft' & _ & _ & Hn & Hfit').
    cbn [length Nat.add]. rewrite drain_S, E. cbn [bind snd fst set_done].
    destruct (IH n w' g') as (w'' & E'); auto.
    { rewrite Hg. apply lookup_insert_eq. }
    { rewrite Hn. exact Hfit'. }
    cbn [Nat.add] in E'. rewrite E'. simpl. eauto.
Qed.

(** [generator_next] on a finished generator. *)
Lemma generator_next_finished l w g d :
  gens w !! l = Some g -> state g = GEN_FINISHED ->
  generator_next (Some l) d w = Ok (yielded_value g, set_done d true) w.
Proof.
  intros Hl Hst. unfold generator_next.
  rewrite (deref_live _ _ _ Hl). simpl. rewrite Hst. reflexivity.
Qed.

Lemma drive_finished l ds : forall w g,
  gens w !! l = Some g -> state g = GEN_FINISHED ->
  drive (Some l) ds w
  = Ok (map (fun d => (yielded_value g, set_done d true)) ds) w.
Proof.
  induction ds as [|d ds IH]; intros w g Hl Hst; cbn [drive map]; [reflexivity|].
  rewrite (generator_next_finished l w g d Hl Hst). cbn [bind].
  rewrite (IH w g Hl Hst). reflexivity.
Qed.

(** [yield] outside of a running generator: the message, and nothing
    else. *)
Lemma yield_not_running l w g v :
  gens w !! l = Some g -> state g <> GEN_RUNNING ->
  yield (Some l) v w
  = Ok yield_rejected
      (print_err (Printf "Error: yield() called outside of a running generator context or with invalid generator.\n" []) w).
Proof.
  intros Hl Hst. unfold yield. rewrite (deref_live _ _ _ Hl). simpl.
  destruct (state g); [contradiction| |]; reflexivity.
Qed.

(** [generator_destroy] on a live generator: the block and its stack are
    freed, and nothing else changes. The function does not look at the
    state; a consumer calls it between two calls of [generator_next], when
    the generator is not running on the stack that is freed. *)
Lemma generator_destroy_live l w g s sz :
  gens w !! l = Some g -> stack g = Some s -> stacks w !! s = Some sz ->
  generator_destroy (Some l) w
  = Ok tt (set_gens (delete l (gens w)) (set_stacks (delete s (stacks w)) w)).
Proof.
  intros Hl Hs Hsz. unfold generator_destroy, free_stack.
  rewrite (deref_live _ _ _ Hl). simpl. rewrite Hs, Hsz. reflexivity.
Qed.


End WithUserData.

End StackfulFacts.

(** ** Properties of [check_bst_property] *)

Module BstFacts.
Import Stackful StackfulDefs StackfulFacts Bst.

Implicit Types (w : world TreeNode) (g : generator TreeNode).

Lemma insert_pair_again {A} (m : gmap loc A) la lb (a b a' b' : A) :
  la <> lb ->
  <[la := a']> (<[lb := b']> (<[la := a]> (<[lb := b]> m)))
  = <[la := a']> (<[lb := b']> m).
Proof.
  intros Hne. apply map_eq. intros i.
  rewrite !lookup_insert. repeat case_decide; congruence.
Qed.

Lemma generator_create_fresh (f : generator_func_t (U := TreeNode)) ud size w :
  0 <= size -> libc_fails w = [] ->
  exists l stk w',
    generator_create (Some f) ud size w = Ok (Some l) w' /\
    gens w !! l = None /\ stacks w !! stk = None /\
    gens w' = <[l := mk_generator ctx_entry (Some stk) (chosen_stack_size size)
                       f 0 GEN_SUSPENDED ud]> (gens w) /\
    stacks w' = <[stk := chosen_stack_size size]> (stacks w) /\
    libc_fails w' = [] /\ stack_need w' = stack_need w.
Proof.
  intros Hsize Hok.
  destruct (generator_create_cases f ud size w Hsize)
    as [(w' & _ & _ & _ & b & Hb & _)
       |(l & stk & w' & H1 & H2 & H3 & _ & H5 & H6 & H7 & _ & _ & H8)].
  - rewrite Hok in Hb. destruct Hb.
  - rewrite Hok in H7. exists l, stk, w'. auto 10.
Qed.

(** The safety break of the loop: on a valid binary search tree of 102
    nodes [check_bst_property] returns [false] after 101 comparisons. *)
Lemma check_bst_property_safety_break :
  strictly_increasing (direct_inorder (Examples.chain 102 1)) /\
  exists w, check_bst_property (Examples.chain 102 1) start = Ok false w /\
            stderr w = [Printf "Error: Safety break triggered in comparison loop.\n" []].
Proof.
  split.
  - vm_compute. repeat split.
  - eexists. split; vm_compute; reflexivity.
Qed.

End BstFacts.

(** ** More properties of the stackful backend *)

Module StackfulMoreFacts.
Import Stackful StackfulDefs StackfulFacts StackfulMore.

Section WithUserData.

Context {U : Type}.
Implicit Types (w : world U) (g : generator U) (l : loc).

Lemma same_resources_refl g : same_resources g g.
Proof. repeat split. Qed.

Lemma same_resources_trans g1 g2 g3 :
  same_resources g1 g2 -> same_resources g2 g3 -> same_resources g1 g3.
Proof. unfold same_resources. intros (? & ? & ? & ?) (? & ? & ? & ?). repeat split; congruence. Qed.

(** Whatever the state of the generator and whatever libc calls fail, user
    code that runs in a live generator gives the control back; only the
    block of this generator has changed, and it is no longer running. When
    the stack is enough for what is left of the code after each yield, it
    is enough for the generator as the code leaves it. *)
Lemma resume_any k : forall l w g,
  gens w !! l = Some g ->
  (state g = GEN_RUNNING -> fits_after (stack_need w) (stack_size g) k) ->
  exists w' g',
    resume k l w = Ok tt w' /\
    gens w' = <[l := g']> (gens w) /\ stacks w' = stacks w /\
    between_calls g' /\ same_resources g g' /\
    stack_need w' = stack_need w /\ stack_suffices (stack_need w) g'.
Proof.
  induction k as [|v k IH|f IH|s p k IH]; intros l w g Hl Hfit; cbn [resume].
  - rewrite (deref_live _ _ _ Hl). cbn [bind]. unfold libc_call.
    destruct w as [gs ss so se [|[] lf] nd]; simpl in *;
      eexists _, _; (split; [reflexivity|]); simpl;
      repeat split; auto; discriminate.
  - unfold yield. rewrite (deref_live _ _ _ Hl). cbn [bind].
    destruct (is_running (state g)) eqn:Hrun; cbn [negb bind].
    + assert (Hfit' : stack_fits (stack_need w) (stack_size g) k).
      { apply Hfit. destruct (state g); [reflexivity|discriminate|discriminate]. }
      unfold libc_call.
      destruct w as [gs ss so se [|[] lf] nd]; cbn -[resume];
        unfold deref; cbn -[resume]; rewrite ?lookup_insert_eq; cbn -[resume].
      * eexists _, _. split; [reflexivity|]. simpl.
        rewrite insert_insert_eq. repeat split; auto; try discriminate; apply Hfit'.
      * edestruct (IH l) as (w' & g' & E & Hg & Hs & Hb & Hr & Hn & Hsuf);
          [| |rewrite E; exists w', g'; split; [reflexivity|]].
        { simpl. apply lookup_insert_eq. }
        { simpl. discriminate. }
        simpl in Hg, Hs, Hn, Hsuf. rewrite !insert_insert_eq in Hg.
        repeat split; try apply Hb; try apply Hr; auto.
      * eexists _, _. split; [reflexivity|]. simpl.
        rewrite insert_insert_eq. repeat split; auto; try discriminate; apply Hfit'.
    + destruct (IH l (print_err (Printf "Error: yield() called outside of a running generator context or with invalid generator.\n" []) w) g Hl)
        as (w' & g' & E & Hg & Hs & Hb & Hr & Hn & Hsuf).
      { intros Hst. rewrite Hst in Hrun. discriminate. }
      rewrite E. exists w', g'. auto 10.
  - rewrite (deref_live _ _ _ Hl). cbn [bind]. apply IH; [exact Hl|].
    intros Hst. rewrite Hst. apply Hfit, Hst.
  - destruct s.
    + destruct (IH l (print_out p w) g Hl Hfit) as (w' & g' & E & ?).
      exists w', g'. auto.
    + destruct (IH l (print_err p w) g Hl Hfit) as (w' & g' & E & ?).
      exists w', g'. auto.
Qed.

(** [generator_next] on a live generator between two calls whose stack is
    enough for what is left of its user function, whatever libc calls
    fail: it returns, the block of the generator is the only block that
    has changed, the generator is again between two calls, and the flag
    written to [*done] is [true] exactly when it is finished. *)
Lemma generator_next_any l w g d :
  gens w !! l = Some g -> between_calls g ->
  stack_suffices (stack_need w) g ->
  exists v w' g',
    generator_next (Some l) d w
    = Ok (v, set_done d (is_finished (state g'))) w' /\
    gens w' = <[l := g']> (gens w) /\ stacks w' = stacks w /\
    between_calls g' /\ same_resources g g' /\
    stack_need w' = stack_need w /\ stack_suffices (stack_need w) g'.
Proof.
  intros Hl [Hnr Hctx] Hsuf. unfold generator_next.
  rewrite (deref_live _ _ _ Hl). cbn [bind].
  unfold stack_suffices in Hsuf.
  destruct (state g) eqn:Hst; [contradiction| |]; cbn [is_finished].
  - assert (Hres : forall k w0,
              gens w0 = <[l := set_state GEN_RUNNING g]> (gens w) ->
              stacks w0 = stacks w -> stack_need w0 = stack_need w ->
              stack_fits (stack_need w) (stack_size g) k ->
              exists v w' g',
                bind (run_on_stack k l w0)
                  (fun _ w3 => bind (deref l w3) (fun g3 w3 =>
                     Ok (yielded_value g3, set_done d (is_finished (state g3))) w3))
                = Ok (v, set_done d (is_finished (state g'))) w' /\
                gens w' = <[l := g']> (gens w) /\ stacks w' = stacks w /\
                between_calls g' /\ same_resources g g' /\
                stack_need w' = stack_need w /\ stack_suffices (stack_need w) g').
    { intros k w0 Hg0 Hs0 Hn0 [Hneed Hafter].
      unfold run_on_stack, deref at 1. rewrite Hg0, lookup_insert_eq. cbn [bind].
      rewrite Hn0. cbn [stack_size set_state].
      destruct (Z.leb_spec (stack_need w k) (stack_size g)); [|lia].
      destruct (resume_any k l w0 (set_state GEN_RUNNING g))
        as (w' & g' & E & Hg & Hs & Hb & Hr & Hn & Hsuf').
      { rewrite Hg0. apply lookup_insert_eq. }
      { intros _. rewrite Hn0. exact Hafter. }
      rewrite E. cbn [bind]. unfold deref. rewrite Hg, lookup_insert_eq. cbn [bind].
      exists (yielded_value g'), w', g'. split; [reflexivity|].
      rewrite Hg0, insert_insert_eq in Hg. rewrite Hs0 in Hs.
      rewrite Hn0 in Hn, Hsuf'. auto 10. }
    unfold libc_call, switch_to_generator.
    destruct w as [gs ss so se [|[] lf] nd]; cbn [libc_fails store set_gens gens stacks
                                                stdout stderr stack_need] in *.
    + unfold deref at 1. unfold store, set_gens. cbn [gens]. rewrite lookup_insert_eq. cbn [bind].
      cbn [context set_state user_func user_data].
      destruct (context g) eqn:Hc.
      * apply Hres; auto.
      * apply Hres; auto.
      * specialize (Hctx eq_refl). discriminate.
    + unfold deref. cbn. rewrite lookup_insert_eq. cbn.
      eexists 0, _, (set_state GEN_FINISHED (set_state GEN_RUNNING g)).
      split; [reflexivity|]. cbn. rewrite insert_insert_eq.
      repeat split; auto; discriminate.
    + unfold deref at 1. unfold store, set_gens. cbn [gens]. rewrite lookup_insert_eq. cbn [bind].
      cbn [context set_state user_func user_data].
      destruct (context g) eqn:Hc.
      * apply Hres; auto.
      * apply Hres; auto.
      * specialize (Hctx eq_refl). discriminate.
  - exists (yielded_value g), w, g. rewrite Hst. cbn.
    rewrite (insert_id _ _ _ Hl).
    repeat split; auto; [rewrite Hst; discriminate|].
    unfold stack_suffices. rewrite Hst. exact I.
Qed.

(** A consumer that calls [generator_next] again and again on a live
    generator, whatever libc calls fail: every call returns, and only the
    block of the generator changes. *)
Lemma drive_any l ds : forall w g,
  gens w !! l = Some g -> between_calls g ->
  stack_suffices (stack_need w) g ->
  exists rs w' g',
    drive (Some l) ds w = Ok rs w' /\ length rs = length ds /\
    gens w' = <[l := g']> (gens w) /\ stacks w' = stacks w /\
    between_calls g' /\ same_resources g g'.
Proof.
  induction ds as [|d ds IH]; intros w g Hl Hb Hsuf; cbn [drive].
  - exists [], w, g. rewrite (insert_id _ _ _ Hl).
    repeat split; auto; apply Hb.
  - destruct (generator_next_any l w g d Hl Hb Hsuf)
      as (v & w1 & g1 & E & Hg & Hs & Hb1 & Hr1 & Hn1 & Hsuf1).
    rewrite E. cbn [bind].
    destruct (IH w1 g1) as (rs & w' & g' & E' & Hlen & Hg' & Hs' & Hb' & Hr'); auto.
    { rewrite Hg. apply lookup_insert_eq. }
    { rewrite Hn1. exact Hsuf1. }
    rewrite E'. cbn [bind].
    eexists _, w', g'. split; [reflexivity|].
    rewrite Hg', Hg, insert_insert_eq, Hs', Hs. cbn [length].
    repeat split; try apply Hb'; auto.
    all: destruct Hr1 as (? & ? & ? & ?), Hr' as (? & ? & ? & ?); congruence.
Qed.

(** User code that runs in a generator that is not running: each of its
    calls of [yield] is rejected, so the value of the generator stays, and
    at its end the generator is finished. *)
Lemma resume_not_running k : forall l w g,
  gens w !! l = Some g -> state g <> GEN_RUNNING ->
  exists w' g',
    resume k l w = Ok tt w' /\ gens w' = <[l := g']> (gens w) /\
    state g' = GEN_FINISHED /\ yielded_value g' = yielded_value g.
Proof.
  induction k as [|v k IH|f IH|s p k IH]; intros l w g Hl Hst; cbn [resume].
  - rewrite (deref_live _ _ _ Hl). cbn [bind]. unfold libc_call.
    destruct w as [gs ss so se [|[] lf] nd]; simpl in *;
      eexists _, _; (split; [reflexivity|]); simpl; auto.
  - rewrite (yield_not_running l w g v Hl Hst). cbn [bind].
    apply (IH l (print_err _ w) g Hl Hst).
  - rewrite (deref_live _ _ _ Hl). cbn [bind]. apply IH; assumption.
  - destruct s; [apply (IH l (print_out p w) g Hl Hst)
                |apply (IH l (print_err p w) g Hl Hst)].
Qed.

(** User code that runs in a running generator whose next [swapcontext]
    fails: the value of its first [yield] is stored, the generator is
    finished, and the user function runs to its end in the same call. *)
Lemma resume_yield_swap_fails k : forall l w g y ys rest,
  gens w !! l = Some g -> state g = GEN_RUNNING ->
  libc_fails w = true :: rest -> yielded_values k = y :: ys ->
  exists w' g',
    resume k l w = Ok tt w' /\ gens w' = <[l := g']> (gens w) /\
    state g' = GEN_FINISHED /\ yielded_value g' = y.
Proof.
  induction k as [|v k IH|f IH|s p k IH]; intros l w g y ys rest Hl Hst Hlibc Hys;
    cbn [resume yielded_values] in *.
  - discriminate.
  - injection Hys as -> _.
    unfold yield. rewrite (deref_live _ _ _ Hl). cbn [bind]. rewrite Hst.
    cbn [is_running negb]. unfold libc_call.
    destruct w as [gs ss so se lf nd]; cbn in Hlibc; subst lf. cbn -[resume].
    unfold deref. cbn -[resume]. rewrite lookup_insert_eq. cbn -[resume].
    edestruct (resume_not_running k l) as (w' & g' & E & Hg & Hf & Hv);
      [| |rewrite E; exists w', g'; split; [reflexivity|]].
    { cbn. apply lookup_insert_eq. }
    { cbn. discriminate. }
    cbn in Hg, Hv. rewrite !insert_insert_eq in Hg. auto.
  - rewrite (deref_live _ _ _ Hl). cbn [bind]. rewrite Hst. eapply IH; eauto.
  - destruct s;
      [eapply (IH l (print_out p w) g)|eapply (IH l (print_err p w) g)]; eauto.
Qed.

(** A generator that [generator_create] has returned, with a stack that
    is enough for its user function, consumed by any number of calls of
    [generator_next] and then destroyed: no call has undefined behaviour,
    and the heap is as it was before the creation. *)
Lemma create_drive_destroy (f : generator_func_t (U := U)) ud size ds w l w1 :
  0 <= size ->
  stack_fits (stack_need w) (chosen_stack_size size) (f ud) ->
  generator_create (Some f) ud size w = Ok (Some l) w1 ->
  exists rs w2 w3,
    drive (Some l) ds w1 = Ok rs w2 /\ length rs = length ds /\
    generator_destroy (Some l) w2 = Ok tt w3 /\
    gens w3 = gens w /\ stacks w3 = stacks w.
Proof.
  intros Hsize Hfit Hcreate.
  destruct (generator_create_cases f ud size w Hsize)
    as [(w' & E & _)
       |(l' & stk & w' & E & Hl & Hstk & Hne & Hg & Hs & _ & _ & _ & Hn)];
    rewrite E in Hcreate; [discriminate|].
  injection Hcreate as -> ->.
  set (g0 := mk_generator ctx_entry (Some stk) (chosen_stack_size size) f 0
               GEN_SUSPENDED ud) in *.
  destruct (drive_any l ds w1 g0) as (rs & w2 & g' & Ed & Hlen & Hg2 & Hs2 & _ & Hres).
  { rewrite Hg. apply lookup_insert_eq. }
  { split; [discriminate|]. intros H. discriminate H. }
  { rewrite Hn. exact Hfit. }
  destruct Hres as (Hstack & _).
  exists rs, w2. eexists. split; [exact Ed|]. split; [exact Hlen|].
  split.
  - apply (generator_destroy_live l w2 g' stk (chosen_stack_size size)).
    + rewrite Hg2. apply lookup_insert_eq.
    + exact Hstack.
    + rewrite Hs2, Hs. apply lookup_insert_eq.
  - cbn. rewrite Hg2, Hg, Hs2, Hs. split.
    + rewrite insert_insert_eq. apply delete_insert_id. exact Hl.
    + apply delete_insert_id. exact Hstk.
Qed.

End WithUserData.

End StackfulMoreFacts.

(** ** More properties of [bst.c] *)

Module BstMoreFacts.
Import Stackful StackfulDefs StackfulFacts StackfulMore StackfulMoreFacts Bst BstFacts.

Implicit Types (w : world TreeNode) (g : generator TreeNode).

(** The loop of [check_bst_property] in full: it answers [true] if and only
    if the sequence of [b] and of what A has left is strictly increasing
    and all of its comparisons are made before the safety break. *)
Lemma check_loop_characterized la lb : la <> lb -> forall ya b fuel step fa fb w ga gb,
  gens w !! la = Some ga -> gens w !! lb = Some gb ->
  has_left ga ya -> has_left gb (b :: ya) -> libc_fails w = [] ->
  stack_suffices (stack_need w) ga -> stack_suffices (stack_need w) gb ->
  0 <= step <= 100 -> 101 <= Z.of_nat fuel + step ->
  exists r w' ga' gb',
    check_loop fuel (Some la) (Some lb) fa fb step w = Ok r w' /\
    (r = true <->
     strictly_increasing (b :: ya) /\ step + Z.of_nat (length ya) <= 100) /\
    gens w' = <[la := ga']> (<[lb := gb']> (gens w)) /\
    stack ga' = stack ga /\ stack gb' = stack gb /\
    stacks w' = stacks w /\ libc_fails w' = [].
Proof.
  intros Hne ya.
  induction ya as [|a ya IH];
    intros b fuel step fa fb w ga gb Ha Hb Hla Hlb Hok Hsufa Hsufb Hstep Hfuel;
    (destruct fuel as [|fuel]; [simpl in Hfuel; lia|]);
    cbn [check_loop];
    destruct (generator_next_has_left lb w gb _ (Some fb) Hb Hlb Hok Hsufb)
      as (w1 & gb1 & E1 & Hg1 & Hs1 & Hf1 & Hlb1 & _ & Hst1 & Hn1 & Hsufb1);
    rewrite E1; cbn [bind];
    (assert (Ha1 : gens w1 !! la = Some ga)
       by (rewrite Hg1, lookup_insert_ne by congruence; exact Ha));
    (assert (Hsufa1 : stack_suffices (stack_need w1) ga)
       by (rewrite Hn1; exact Hsufa)).
  - destruct (generator_next_has_left la w1 ga _ (Some fa) Ha1 Hla Hf1 Hsufa1)
      as (w2 & ga2 & E2 & Hg2 & Hs2 & Hf2 & Hla2 & _ & Hst2 & Hn2 & Hsufa2).
    rewrite E2. cbn [bind fst snd set_done flag default]. simpl.
    rewrite ?orb_true_r.
    eexists true, _, ga2, gb1. split; [reflexivity|]. simpl.
    rewrite Hg2, Hg1.
    repeat split; auto; try congruence; lia.
  - destruct (generator_next_has_left la w1 ga _ (Some fa) Ha1 Hla Hf1 Hsufa1)
      as (w2 & ga2 & E2 & Hg2 & Hs2 & Hf2 & Hla2 & _ & Hst2 & Hn2 & Hsufa2).
    rewrite E2. cbn [bind fst snd set_done flag default orb tail] in *.
    assert (Hsa2 : stack_suffices (stack_need w2) ga2)
      by (rewrite Hn2; exact Hsufa2).
    assert (Hsb2 : stack_suffices (stack_need w2) gb1)
      by (rewrite Hn2, Hn1; exact Hsufb1).
    assert (Hb2 : gens w2 !! lb = Some gb1).
    { rewrite Hg2, lookup_insert_ne, Hg1 by congruence. apply lookup_insert_eq. }
    assert (Ha2 : gens w2 !! la = Some ga2).
    { rewrite Hg2. apply lookup_insert_eq. }
    destruct (Z.leb_spec a b) as [Hle|Hlt].
    + eexists false, _, ga2, gb1. split; [reflexivity|]. simpl.
      rewrite Hg2, Hg1.
      repeat split; auto; try congruence; try discriminate.
      intros [[Hba _] _]. lia.
    + destruct (Z.ltb_spec 100 (step + 1)) as [Hbreak|Hgo].
      * eexists false, _, ga2, gb1. split; [reflexivity|]. simpl.
        rewrite Hg2, Hg1.
        repeat split; auto; try congruence; try discriminate.
        intros [_ Hlen]. cbn [length] in Hlen. lia.
      * edestruct (IH a fuel (step + 1) false false
                     (print_out (Printf "Check OK: %ld > %ld\n" [a; b])
                        (print_out (Printf "Step %d: Comparing A=%ld (next) with B=%ld (current)\n"
                                      [step; a; b]) w2))
                     ga2 gb1)
          as (r & w' & ga' & gb' & E & Hr & Hg' & Hsa & Hsb & Hs' & Hf');
          simpl; auto; try lia.
        exists r, w', ga', gb'. split; [exact E|].
        simpl in Hs', Hg'.
        split; [|repeat split; try congruence].
        -- rewrite Hr. cbn [length]. simpl. split.
           ++ intros [Hinc Hlen]. split; [split; [lia|exact Hinc]|lia].
           ++ intros [[_ Hinc] Hlen]. split; [exact Hinc|lia].
        -- rewrite Hg', Hg2, Hg1. apply insert_pair_again, Hne.
Qed.

(** In a generator that is not running the traversal unwinds: when the state is
    not [GEN_RUNNING], [inorder_recursive_helper] returns to its caller
    without a call of [yield], whatever the tree. *)
Lemma helper_unwinds t : forall k l w g,
  gens w !! l = Some g -> state g <> GEN_RUNNING ->
  resume (inorder_recursive_helper t k) l w = resume k l w.
Proof.
  induction t as [|data lt IHl rt IHr]; intros k l w g Hl Hst; [reflexivity|].
  cbn [inorder_recursive_helper].
  rewrite (IHl _ l w g Hl Hst). cbn [resume].
  rewrite (deref_live _ _ _ Hl). cbn [bind].
  destruct (state g); [contradiction| |]; reflexivity.
Qed.

(** [check_bst_property] in a process where no libc call fails and the
    stack of 32 KB is enough for the traversal: it returns [true] if and
    only if the tree is a valid binary search tree of at most 101 nodes,
    and it leaves the heap as it found it. *)
Lemma check_bst_property_characterized t w :
  libc_fails w = [] ->
  stack_fits (stack_need w) (32 * 1024) (bst_inorder_recursive_generator t) ->
  exists r w',
    check_bst_property t w = Ok r w' /\
    (r = true <-> valid_bst t /\ (length (direct_inorder t) <= 101)%nat) /\
    gens w' = gens w /\ stacks w' = stacks w.
Proof.
  intros Hok Hfit. destruct t as [|data l r].
  { eexists true, _. split; [reflexivity|]. simpl. split; [|tauto].
    split; [intros _; split; [exact I|lia]|intros _; reflexivity]. }
  unfold check_bst_property. cbv beta zeta iota.
  set (t := Node data l r) in *.
  set (w0 := print_out _ w).
  destruct (generator_create_fresh bst_inorder_recursive_generator t (32 * 1024) w0)
    as (la & sa & wa & Ea & Hla & Hsa & Hga & Hssa & Hfa & Hna); [lia|exact Hok|].
  rewrite Ea. cbn [bind].
  destruct (generator_create_fresh bst_inorder_recursive_generator t (32 * 1024) wa)
    as (lb & sb & wb & Eb & Hlb & Hsb & Hgb & Hssb & Hfb & Hnb); [lia|exact Hfa|].
  rewrite Eb. cbn [bind].
  set (sz := chosen_stack_size (32 * 1024)) in *.
  set (g0a := mk_generator ctx_entry (Some sa) sz bst_inorder_recursive_generator
                0 GEN_SUSPENDED t) in *.
  set (g0b := mk_generator ctx_entry (Some sb) sz bst_inorder_recursive_generator
                0 GEN_SUSPENDED t) in *.
  assert (Hne : la <> lb).
  { intros ->. rewrite Hga, lookup_insert_eq in Hlb. discriminate. }
  assert (Hsne : sa <> sb).
  { intros ->. rewrite Hssa, lookup_insert_eq in Hsb. discriminate. }
  assert (Hys : exists b ya, direct_inorder t = b :: ya).
  { destruct (direct_inorder t) as [|b ya] eqn:E; [|eauto].
    simpl in E. destruct (direct_inorder l); discriminate. }
  destruct Hys as (b & ya & Hys).
  assert (Hleft0 : forall s0, has_left (mk_generator ctx_entry (Some s0) sz
                     bst_inorder_recursive_generator 0 GEN_SUSPENDED t) (b :: ya)).
  { intros s0. unfold has_left. simpl.
    rewrite <- Hys. symmetry. apply yielded_values_bst_generator. }
  assert (Hsuf0 : forall s0, stack_suffices (stack_need wb)
                     (mk_generator ctx_entry (Some s0) sz
                        bst_inorder_recursive_generator 0 GEN_SUSPENDED t)).
  { intros s0. rewrite Hnb, Hna. exact Hfit. }
  set (w1 := print_out _ wb).
  destruct (generator_next_has_left la w1 g0a (b :: ya) (Some false))
    as (w2 & ga1 & E2 & Hg2 & Hs2 & Hf2 & Hleft2 & _ & Hst2 & Hn2 & Hsuf2).
  { simpl. rewrite Hgb, lookup_insert_ne, Hga by congruence. apply lookup_insert_eq. }
  { apply Hleft0. }
  { exact Hfb. }
  { apply (Hsuf0 sa). }
  rewrite E2. cbn [bind snd fst set_done flag default].
  set (w3 := print_out _ (print_out _ w2)).
  destruct (check_loop_characterized la lb Hne ya b 102 0 false false w3 ga1 g0b)
    as (res & w4 & ga' & gb' & E4 & Hres & Hg4 & Hsta & Hstb & Hs4 & Hf4).
  { simpl. rewrite Hg2. apply lookup_insert_eq. }
  { simpl. rewrite Hg2, lookup_insert_ne by congruence. simpl.
    rewrite Hgb. apply lookup_insert_eq. }
  { exact Hleft2. }
  { apply Hleft0. }
  { exact Hf2. }
  { cbn. rewrite Hn2. exact Hsuf2. }
  { cbn. rewrite Hn2. apply (Hsuf0 sb). }
  { lia. }
  { simpl. lia. }
  rewrite E4. cbn [bind].
  simpl in Hg4, Hs4.
  set (w5 := print_out _ w4).
  assert (Hst4 : stacks w4 = <[sb := sz]> (<[sa := sz]> (stacks w))).
  { rewrite Hs4, Hs2. simpl. rewrite Hssb, Hssa. reflexivity. }
  rewrite (generator_destroy_live la w5 ga' sa sz).
  2:{ simpl. rewrite Hg4. apply lookup_insert_eq. }
  2:{ rewrite Hsta, Hst2. reflexivity. }
  2:{ simpl. rewrite Hst4, lookup_insert_ne by congruence. apply lookup_insert_eq. }
  cbn [bind].
  rewrite (generator_destroy_live lb _ gb' sb sz).
  2:{ simpl. rewrite Hg4, lookup_delete_ne, lookup_insert_ne by congruence.
      apply lookup_insert_eq. }
  2:{ rewrite Hstb. reflexivity. }
  2:{ simpl. rewrite Hst4, lookup_delete_ne by congruence. apply lookup_insert_eq. }
  cbn [bind].
  exists res. eexists. split; [reflexivity|].
  assert (Hlb0 : gens w !! lb = None).
  { rewrite Hga, lookup_insert_ne in Hlb by congruence. exact Hlb. }
  assert (Hsb0 : stacks w !! sb = None).
  { rewrite Hssa, lookup_insert_ne in Hsb by congruence. exact Hsb. }
  split.
  { rewrite Hres, (valid_bst_inorder t), Hys. cbn [length].
    split; intros [H1 H2]; (split; [exact H1|lia]). }
  simpl in Hla, Hsa. simpl.
  split.
  - rewrite Hg4, Hg2. simpl. rewrite Hgb, Hga. simpl.
    apply map_eq. intros i.
    rewrite !lookup_delete, !lookup_insert. repeat case_decide; congruence.
  - rewrite Hst4.
    apply map_eq. intros i.
    rewrite !lookup_delete, !lookup_insert. repeat case_decide; congruence.
Qed.

(** The loop of [check_bst_property] whatever libc calls fail: it ends, by
    its safety break at the latest, and only the blocks of the two
    generators change. *)
Lemma check_loop_any la lb : la <> lb -> forall fuel step fa fb w ga gb,
  gens w !! la = Some ga -> gens w !! lb = Some gb ->
  between_calls ga -> between_calls gb ->
  stack_suffices (stack_need w) ga -> stack_suffices (stack_need w) gb ->
  0 <= step <= 100 -> 101 <= Z.of_nat fuel + step ->
  exists r w' ga' gb',
    check_loop fuel (Some la) (Some lb) fa fb step w = Ok r w' /\
    gens w' = <[la := ga']> (<[lb := gb']> (gens w)) /\
    stack ga' = stack ga /\ stack gb' = stack gb /\
    stacks w' = stacks w.
Proof.
  intros Hne fuel.
  induction fuel as [|fuel IH];
    intros step fa fb w ga gb Ha Hb Hba Hbb Hsufa Hsufb Hstep Hfuel;
    [simpl in Hfuel; lia|].
  cbn [check_loop].
  destruct (generator_next_any lb w gb (Some fb) Hb Hbb Hsufb)
    as (vb & w1 & gb1 & E1 & Hg1 & Hs1 & Hbb1 & (Hstb & _) & Hn1 & Hsufb1).
  rewrite E1. cbn [bind].
  assert (Ha1 : gens w1 !! la = Some ga).
  { rewrite Hg1, lookup_insert_ne by congruence. exact Ha. }
  assert (Hsufa1 : stack_suffices (stack_need w1) ga) by (rewrite Hn1; exact Hsufa).
  destruct (generator_next_any la w1 ga (Some fa) Ha1 Hba Hsufa1)
    as (va & w2 & ga1 & E2 & Hg2 & Hs2 & Hba1 & (Hsta & _) & Hn2 & Hsufa2).
  rewrite E2. cbn [bind fst snd].
  assert (Hg : gens w2 = <[la := ga1]> (<[lb := gb1]> (gens w))).
  { rewrite Hg2, Hg1. reflexivity. }
  assert (Hs : stacks w2 = stacks w) by congruence.
  destruct (flag fb _ || flag fa _).
  { exists true. eexists _, ga1, gb1. split; [reflexivity|]. cbn. auto. }
  destruct (va <=? vb).
  { exists false. eexists _, ga1, gb1. split; [reflexivity|]. cbn. auto. }
  destruct (Z.ltb_spec 100 (step + 1)) as [Hbig|Hsmall].
  { exists false. eexists _, ga1, gb1. split; [reflexivity|]. cbn. auto. }
  match goal with
  | |- context [check_loop fuel _ _ ?fa' ?fb' _ ?w'] =>
      destruct (IH (step + 1) fa' fb' w' ga1 gb1)
        as (r & w3 & ga' & gb' & E3 & Hg3 & Hsta3 & Hstb3 & Hs3)
  end.
  { cbn. rewrite Hg. apply lookup_insert_eq. }
  { cbn. rewrite Hg, lookup_insert_ne by congruence. apply lookup_insert_eq. }
  { exact Hba1. }
  { exact Hbb1. }
  { cbn. rewrite Hn2. exact Hsufa2. }
  { cbn. rewrite Hn2, Hn1. exact Hsufb1. }
  { lia. }
  { lia. }
  exists r, w3, ga', gb'. split; [exact E3|].
  cbn in Hg3, Hs3. rewrite Hg in Hg3.
  rewrite (insert_pair_again _ _ _ _ _ _ _ Hne) in Hg3.
  split; [exact Hg3|]. split; [congruence|]. split; [congruence|]. congruence.
Qed.

Lemma destroy_created l stk (g : generator TreeNode) sz w h st :
  gens w = <[l := g]> h -> h !! l = None ->
  stacks w = <[stk := sz]> st -> st !! stk = None -> stack g = Some stk ->
  exists w', generator_destroy (Some l) w = Ok tt w' /\
             gens w' = h /\ stacks w' = st.
Proof.
  intros Hg Hl Hs Hstk Hstack.
  rewrite (generator_destroy_live l w g stk sz).
  - eexists. split; [reflexivity|]. cbn. rewrite Hg, Hs.
    split; apply delete_insert_id; assumption.
  - rewrite Hg. apply lookup_insert_eq.
  - exact Hstack.
  - rewrite Hs. apply lookup_insert_eq.
Qed.

(** [check_bst_property] whatever libc calls fail, when the stack of 32 KB
    is enough for the traversal: it returns, and the heap is as it was
    before the call. *)
Lemma check_bst_property_any t w :
  stack_fits (stack_need w) (32 * 1024) (bst_inorder_recursive_generator t) ->
  exists r w',
    check_bst_property t w = Ok r w' /\
    gens w' = gens w /\ stacks w' = stacks w.
Proof.
  intros Hfit. destruct t as [|data l r].
  { eexists true, _. split; [reflexivity|]. cbn. auto. }
  unfold check_bst_property. cbv beta zeta iota.
  set (t := Node data l r) in *.
  set (w0 := print_out _ w).
  assert (Hw0 : gens w0 = gens w /\ stacks w0 = stacks w /\
                stack_need w0 = stack_need w) by (repeat split; reflexivity).
  destruct Hw0 as (Hg0 & Hs0 & Hn0). rewrite <- Hg0, <- Hs0. rewrite <- Hn0 in Hfit.
  clearbody w0. clear Hg0 Hs0 Hn0.
  set (sz := chosen_stack_size (32 * 1024)).
  destruct (generator_create_cases bst_inorder_recursive_generator t (32 * 1024) w0)
    as [(wa & Ea & Hga & Hsa & _)
       |(la & sa & wa & Ea & Hla & Hsa & _ & Hga & Hssa & _ & _ & _ & Hna)]; [lia| |];
    rewrite Ea; cbn [bind];
    (destruct (generator_create_cases bst_inorder_recursive_generator t (32 * 1024) wa)
       as [(wb & Eb & Hgb & Hsb & _)
          |(lb & sb & wb & Eb & Hlb & Hsb & _ & Hgb & Hssb & _ & _ & _ & Hnb)]; [lia| |]);
    rewrite Eb; cbn [bind].
  - eexists false, _. split; [reflexivity|]. cbn. split; congruence.
  - unfold generator_destroy at 1. cbn [bind].
    destruct (destroy_created lb sb
                (mk_generator ctx_entry (Some sb) sz bst_inorder_recursive_generator
                   0 GEN_SUSPENDED t) sz (print_err (Printf "Failed to create generators.\n" []) wb)
                (gens wa) (stacks wa)) as (w' & E & Hg & Hs); auto.
    rewrite E. cbn [bind].
    eexists false, _. split; [reflexivity|]. split; congruence.
  - destruct (destroy_created la sa
                (mk_generator ctx_entry (Some sa) sz bst_inorder_recursive_generator
                   0 GEN_SUSPENDED t) sz (print_err (Printf "Failed to create generators.\n" []) wb)
                (gens w0) (stacks w0)) as (w' & E & Hg & Hs); auto.
    { cbn. rewrite Hgb. exact Hga. }
    { cbn. rewrite Hsb. exact Hssa. }
    rewrite E. cbn [bind generator_destroy].
    eexists false, _. split; [reflexivity|]. split; congruence.
  - fold sz in Hga, Hgb, Hssa, Hssb.
    set (g0a := mk_generator ctx_entry (Some sa) sz bst_inorder_recursive_generator
                  0 GEN_SUSPENDED t) in *.
    set (g0b := mk_generator ctx_entry (Some sb) sz bst_inorder_recursive_generator
                  0 GEN_SUSPENDED t) in *.
    assert (Hne : la <> lb).
    { intros ->. rewrite Hga, lookup_insert_eq in Hlb. discriminate. }
    assert (Hsne : sa <> sb).
    { intros ->. rewrite Hssa, lookup_insert_eq in Hsb. discriminate. }
    assert (Hlb0 : gens w0 !! lb = None).
    { rewrite Hga, lookup_insert_ne in Hlb by congruence. exact Hlb. }
    assert (Hsb0 : stacks w0 !! sb = None).
    { rewrite Hssa, lookup_insert_ne in Hsb by congruence. exact Hsb. }
    assert (Hb0 : forall s0, between_calls
                    (mk_generator ctx_entry (Some s0) sz
                       bst_inorder_recursive_generator 0 GEN_SUSPENDED t)).
    { intros s0. split; [discriminate|]. intros H. discriminate H. }
    assert (Hsuf0 : forall s0, stack_suffices (stack_need wb)
                      (mk_generator ctx_entry (Some s0) sz
                         bst_inorder_recursive_generator 0 GEN_SUSPENDED t)).
    { intros s0. rewrite Hnb, Hna. exact Hfit. }
    assert (Hfinal : forall (res b : bool) ga' gb' (w4 : world TreeNode) p,
              gens w4 = <[la := ga']> (<[lb := gb']> (gens wb)) ->
              stacks w4 = stacks wb ->
              stack ga' = Some sa -> stack gb' = Some sb ->
              exists w',
                bind (generator_destroy (Some la) w4) (fun _ w =>
                  bind (generator_destroy (Some lb) w) (fun _ w =>
                    Ok res (if b then print_out p w else w)))
                = Ok res w' /\
                gens w' = gens w0 /\ stacks w' = stacks w0).
    { intros res b ga' gb' w4 p Hg4 Hs4 Hsta Hstb.
      rewrite (generator_destroy_live la w4 ga' sa sz).
      2:{ rewrite Hg4. apply lookup_insert_eq. }
      2:{ exact Hsta. }
      2:{ rewrite Hs4, Hssb, lookup_insert_ne by congruence.
          rewrite Hssa. apply lookup_insert_eq. }
      cbn [bind].
      rewrite (generator_destroy_live lb _ gb' sb sz).
      2:{ cbn. rewrite Hg4, lookup_delete_ne, lookup_insert_ne by congruence.
          apply lookup_insert_eq. }
      2:{ exact Hstb. }
      2:{ cbn. rewrite Hs4, lookup_delete_ne by congruence.
          rewrite Hssb. apply lookup_insert_eq. }
      cbn [bind]. eexists. split; [reflexivity|].
      assert (Hgs : forall w', gens (if b then print_out p w' else w') = gens w')
        by (intros ?; destruct b; reflexivity).
      assert (Hss : forall w', stacks (if b then print_out p w' else w') = stacks w')
        by (intros ?; destruct b; reflexivity).
      rewrite Hgs, Hss. cbn. rewrite Hg4, Hs4, Hgb, Hga, Hssb, Hssa. split.
      - apply map_eq. intros i.
        rewrite !lookup_delete, !lookup_insert. repeat case_decide; congruence.
      - apply map_eq. intros i.
        rewrite !lookup_delete, !lookup_insert. repeat case_decide; congruence. }
    set (w1 := print_out _ wb).
    destruct (generator_next_any la w1 g0a (Some false))
      as (va & w2 & ga1 & E2 & Hg2 & Hs2 & Hba1 & (Hsta1 & _) & Hn2 & Hsuf2).
    { cbn. rewrite Hgb, lookup_insert_ne by congruence. rewrite Hga.
      apply lookup_insert_eq. }
    { apply Hb0. }
    { apply (Hsuf0 sa). }
    rewrite E2. cbn [bind snd fst].
    assert (Hg2' : gens w2 = <[la := ga1]> (<[lb := g0b]> (gens wb))).
    { rewrite Hg2. cbn. rewrite Hgb.
      apply map_eq. intros i.
      rewrite !lookup_insert. repeat case_decide; congruence. }
    destruct (flag false _).
    + destruct (Hfinal true false ga1 g0b
                  (print_out (Printf "Tree has 0 or 1 node. Property holds.\n" []) w2)
                  (Printf "Cleaning up generators...\n" []))
        as (w' & E & Hg & Hs).
      { exact Hg2'. }
      { exact Hs2. }
      { exact Hsta1. }
      { reflexivity. }
      exists true, w'. split; [exact E|]. auto.
    + set (w3 := print_out _ (print_out _ w2)).
      destruct (check_loop_any la lb Hne 102 0 false false w3 ga1 g0b)
        as (res & w4 & ga' & gb' & E4 & Hg4 & Hsta & Hstb & Hs4).
      { cbn. rewrite Hg2. apply lookup_insert_eq. }
      { cbn. rewrite Hg2', lookup_insert_ne by congruence. apply lookup_insert_eq. }
      { exact Hba1. }
      { apply Hb0. }
      { cbn. rewrite Hn2. exact Hsuf2. }
      { cbn. rewrite Hn2. apply (Hsuf0 sb). }
      { lia. }
      { cbn. lia. }
      rewrite E4. cbn [bind].
      cbn in Hg4, Hs4. rewrite Hg2' in Hg4.
      rewrite (insert_pair_again _ _ _ _ _ _ _ Hne) in Hg4.
      destruct (Hfinal res true ga' gb'
                  (print_out (Printf "Cleaning up generators...\n" []) w4)
                  (if res
                   then Printf "--- Check Finished (Result: true) ---\n" []
                   else Printf "--- Check Finished (Result: false) ---\n" []))
        as (w' & E & Hg & Hs).
      { exact Hg4. }
      { cbn. rewrite Hs4. cbn. exact Hs2. }
      { rewrite Hsta, Hsta1. reflexivity. }
      { rewrite Hstb. reflexivity. }
      exists res, w'. split; [exact E|]. auto.
Qed.

End BstMoreFacts.

(** ** Properties of the threaded backend *)

Module ThreadedFacts.
Import Threaded ThreadedDefs.

Section WithUserData.

Context {U : Type}.
Implicit Types (c : system U) (g : generator U).

(** When nothing fails, [generator_create] returns the block [created]. *)
Lemma generator_create_created (f : U -> code) (ud : U) :
  generator_create (Some f) ud [] = (Some (created f ud), []).
Proof. reflexivity. Qed.

Lemma valid_addr c : live c = true -> valid (addr c) c = true.
Proof. unfold valid. intros ->. simpl. apply bool_decide_eq_true_2. reflexivity. Qed.

Ltac break1 :=
  repeat match goal with
         | H : _ /\ _ |- _ => destruct H
         | H : exists _, _ |- _ => destruct H
         | H : False |- _ => destruct H
         | H : _ \/ _ |- _ => destruct H
         | H : Some _ = Some _ |- _ => injection H as H
         | H : nexts _ ?ds = _ :: _ |- _ => is_var ds; destruct ds; simpl in H
         | H : _ :: _ = nexts _ ?ds |- _ => is_var ds; destruct ds; simpl in H
         | H : nexts _ ?ds = [] |- _ => is_var ds; destruct ds; simpl in H
         | H : [] = nexts _ ?ds |- _ => is_var ds; destruct ds; simpl in H
         | H : _ :: _ = _ :: _ |- _ => injection H as ? ?
         | H : call_next _ _ = call_next _ _ |- _ => injection H as ? ?
         end; subst; simpl in *; try discriminate.

Ltac break := break1; repeat (progress break1).

Ltac close :=
  unfold pending, handed, whole in *; simpl in *;
  repeat match goal with
         | |- _ /\ _ => split
         | |- exists ds, nexts ?a ?x = nexts ?a ds /\ _ => exists x; split; [reflexivity|]
         end;
  subst; simpl in *; rewrite <- ?app_assoc; simpl;
  try reflexivity; try assumption; try congruence; auto.

Lemma inv_run_worker E c c' : inv E c -> worker_step c = Some c' -> inv E c'.
Proof.
  destruct c as [a [uf ud yv st vr sd] lv wk cl ret cr so se].
  unfold inv, worker_step, initial_loop, signal_cond_next, yield_publish.
  unfold set_worker, set_gen, set_caller, set_live, add_returned, crash, print,
    set_state, set_value_ready, set_yielded_value, set_started.
  simpl. intros (-> & -> & H) Hstep.
  destruct wk as [| | | |[|v k|f|[] p k]|k|k| | |]; simpl in Hstep; try discriminate;
    destruct cl as [script|d script|d script|?|?|?]; try contradiction;
    break; simpl in *.
  all: try (destruct st; simpl in *; try discriminate; break).
  all: try (split; [reflexivity|split; [reflexivity|]]); simpl.
  all: try solve [close | right; close | left; close].
Qed.

Lemma inv_run_caller E c c' : inv E c -> caller_step c = Some c' -> inv E c'.
Proof.
  destruct c as [a [uf ud yv st vr sd] lv wk cl ret cr so se].
  unfold inv, caller_step, next_loop, signal_cond_yield, valid.
  unfold set_worker, set_gen, set_caller, set_live, add_returned, crash, print,
    set_state, set_value_ready, set_yielded_value, set_started.
  simpl. intros (-> & -> & H) Hstep.
  destruct cl as [[|[[l|] d|[l|]] script]|d script|d script|?|?|?];
    try contradiction; try discriminate; break.
  all: rewrite ?bool_decide_eq_true_2 in * by reflexivity; simpl in *.
  all: destruct wk as [| | | |[|v k|f|[] p k]|k|k| | |]; simpl in *;
    try contradiction; break.
  all: try (destruct vr; simpl in *; break).
  all: try (split; [reflexivity|split; [reflexivity|]]); simpl.
  all: try solve [close | right; close | left; close].
Qed.

Lemma inv_step E e c c' : inv E c -> step e c = Some c' -> inv E c'.
Proof.
  intros Hinv. unfold step.
  destruct (crashed c); [discriminate|].
  destruct e.
  - apply inv_run_caller, Hinv.
  - apply inv_run_worker, Hinv.
  - revert Hinv. destruct c as [a [uf ud yv st vr sd] lv wk cl ret cr so se].
    unfold inv, set_caller, pending, handed, whole. simpl.
    intros (-> & -> & H) Hstep.
    destruct cl; try discriminate. break. eauto.
  - revert Hinv. destruct c as [a [uf ud yv st vr sd] lv wk cl ret cr so se].
    unfold inv, set_worker, pending, handed, whole. simpl.
    intros (-> & -> & H) Hstep.
    destruct wk; try discriminate; break;
      (split; [reflexivity|split; [reflexivity|]]);
      destruct cl; try contradiction; break; eauto 10.
Qed.

Lemma inv_exec E s : forall c, inv E c -> inv E (exec s c).
Proof.
  induction s as [|e s IH]; intros c Hinv; simpl; [exact Hinv|].
  apply IH. destruct (step e c) eqn:Hstep; simpl; [|exact Hinv].
  eapply inv_step; eauto.
Qed.

(** The invariant holds when [generator_create] has just returned. *)
Lemma inv_spawn a (f : U -> code) (ud : U) ds :
  inv (expected 0 (yielded_values (f ud)) ds)
      (spawn a (created f ud) (nexts a ds)).
Proof.
  unfold inv, spawn, created, pending, whole. simpl.
  split; [reflexivity|split; [reflexivity|]].
  exists ds. auto.
Qed.

(** In every run the results returned so far are the first of the
    expected ones. *)
Lemma inv_returned E c : inv E c -> exists rest, E = returned c ++ rest.
Proof.
  destruct c as [a [uf ud yv st vr sd] lv wk cl ret cr so se].
  unfold inv, pending, handed. simpl. intros (_ & _ & H).
  destruct cl; try contradiction; destruct H as (ds & _ & H);
    destruct wk; try contradiction; break; eauto.
Qed.

(** When the consumer has made all its calls, it has all the results. *)
Lemma inv_complete E c : inv E c -> caller c = c_ready [] -> returned c = E.
Proof.
  destruct c as [a [uf ud yv st vr sd] lv wk cl ret cr so se].
  unfold inv, pending. simpl. intros (_ & _ & H) ->.
  destruct H as (ds & Hds & H). destruct ds; [|discriminate].
  destruct wk; try contradiction; break; simpl; rewrite app_nil_r; reflexivity.
Qed.

Lemma exec_app s1 s2 c : exec (s1 ++ s2) c = exec s2 (exec s1 c).
Proof. revert c. induction s1 as [|e s1 IH]; intros c; simpl; auto. Qed.

(** A consumer that waits without having been woken waits for a value
    that is not there yet, in every run: no signal is missed. *)
Lemma waits_unready_step e c c' :
  waits_unready c -> step e c = Some c' -> waits_unready c'.
Proof.
  destruct c as [a [uf ud yv st vr sd] lv wk cl ret cr so se].
  unfold waits_unready, step, caller_step, worker_step, next_loop, initial_loop,
    signal_cond_yield, signal_cond_next, yield_publish, valid.
  unfold set_worker, set_gen, set_caller, set_live, add_returned, crash, print,
    set_state, set_value_ready, set_yielded_value, set_started.
  cbn. intros HJ. destruct cr; [discriminate|].
  destruct e.
  - destruct cl as [[|[[l|] d|[l|]] script]|d script|d script|?|?|?];
      try discriminate;
      repeat match goal with
             | |- context [bool_decide ?P] => destruct (bool_decide P)
             end;
      destruct lv, st, vr, sd; cbn; try discriminate;
      try (intros H; injection H as <-; cbn; auto; fail);
      destruct wk; cbn; try discriminate; intros H; injection H as <-; cbn; auto.
  - destruct wk as [| | | |[|v k|f|[] p k]|k|k| | |], lv, st, sd, cl;
      cbn; try discriminate; intros H; injection H as <-; cbn in *; auto.
  - destruct cl; try discriminate; intros H; injection H as <-; exact I.
  - destruct wk; try discriminate; intros H; injection H as <-; exact HJ.
Qed.

Lemma waits_unready_exec s : forall c, waits_unready c -> waits_unready (exec s c).
Proof.
  induction s as [|e s IH]; intros c HJ; simpl; [exact HJ|].
  apply IH. destruct (step e c) eqn:Hstep; simpl; [|exact HJ].
  eapply waits_unready_step; eauto.
Qed.

Lemma no_spurious_wake_app s1 s2 :
  no_spurious_wake s1 -> no_spurious_wake s2 -> no_spurious_wake (s1 ++ s2).
Proof. intros H1 H2. apply Forall_app. split; assumption. Qed.

Lemma no_spurious_wake_caller s :
  no_spurious_wake s -> no_spurious_wake (run_caller :: s).
Proof. intros H. constructor; [left; reflexivity|exact H]. Qed.

Lemma no_spurious_wake_worker s :
  no_spurious_wake s -> no_spurious_wake (run_worker :: s).
Proof. intros H. constructor; [right; reflexivity|exact H]. Qed.

Ltac runs_only :=
  repeat first [apply no_spurious_wake_caller | apply no_spurious_wake_worker];
  first [assumption | constructor].

(** A worker that is in the user function while the consumer waits in
    [generator_next] can be scheduled so that the call returns, without
    a spurious wake-up: the signal of [yield] or of the end of the thread
    wakes the consumer. *)
Lemma user_completes k : forall c d rest,
  worker c = w_user k ->
  caller c = c_next_wait d rest \/ caller c = c_next_woken d rest ->
  live c = true -> crashed c = false ->
  state (gen c) = GEN_RUNNING -> value_ready (gen c) = false ->
  exists s, no_spurious_wake s /\ caller (exec s c) = c_ready rest.
Proof.
  induction k as [|v k IH|f IH|st p k IH]; intros c d rest Hw Hc Hl Hcr Hs Hr;
    destruct c as [a [uf ud yv st' vr sd] lv wk cl ret cr so se];
    simpl in *; subst.
  - exists [run_worker; run_worker; run_caller]. split; [runs_only|].
    destruct Hc as [-> | ->]; reflexivity.
  - exists [run_worker; run_caller]. split; [runs_only|].
    destruct Hc as [-> | ->]; reflexivity.
  - edestruct (IH GEN_RUNNING) as (s & Hnw & Hs); cycle -1.
    + exists (run_worker :: s). split; [runs_only|]. simpl. exact Hs.
    + reflexivity.
    + simpl. exact Hc.
    + reflexivity.
    + reflexivity.
    + reflexivity.
    + reflexivity.
  - edestruct IH as (s & Hnw & Hs); cycle -1.
    + exists (run_worker :: s). split; [runs_only|]. simpl. exact Hs.
    + destruct st; reflexivity.
    + destruct st; simpl; exact Hc.
    + destruct st; reflexivity.
    + destruct st; reflexivity.
    + destruct st; reflexivity.
    + destruct st; reflexivity.
Qed.

Lemma bool_decide_refl (a : loc) : bool_decide (a = a) = true.
Proof. apply bool_decide_eq_true_2. reflexivity. Qed.

(** A call of [generator_next] can always be scheduled to its return. *)
Lemma call_completes E c call rest :
  inv E c -> caller c = c_ready (call :: rest) ->
  exists s, no_spurious_wake s /\ caller (exec s c) = c_ready rest.
Proof.
  destruct c as [a [uf ud yv st vr sd] lv wk cl ret cr so se].
  unfold inv. simpl. intros (-> & -> & H) ->.
  destruct H as (ds & Hds & H). destruct ds as [|d ds]; [discriminate|].
  simpl in Hds. injection Hds as -> ->.
  assert (Hrun : forall k cl0 ret0 so0 se0,
            cl0 = c_next_wait d (nexts a ds) \/ cl0 = c_next_woken d (nexts a ds) ->
            exists s, no_spurious_wake s /\ caller (exec s
              (mk_system a (mk_generator uf ud yv GEN_RUNNING false true)
                 true (w_user k) cl0 ret0 false so0 se0)) = c_ready (nexts a ds)).
  { intros. eapply user_completes; simpl; eauto. }
  destruct wk as [| | | |k|k|k| | |]; try contradiction; break.
  - destruct (Hrun (uf ud) _ ret so se (or_introl eq_refl)) as (s & Hnw & Hs).
    exists (run_caller :: run_worker :: run_worker :: s). split; [runs_only|].
    simpl. unfold step, caller_step, valid. simpl. rewrite bool_decide_refl. simpl.
    exact Hs.
  - destruct (Hrun (uf ud) _ ret so se (or_introl eq_refl)) as (s & Hnw & Hs).
    exists (run_caller :: run_worker :: run_worker :: s). split; [runs_only|].
    simpl. unfold step, caller_step, valid. simpl. rewrite bool_decide_refl. simpl.
    exact Hs.
  - destruct (Hrun (uf ud) _ ret so se (or_introl eq_refl)) as (s & Hnw & Hs).
    exists (run_caller :: run_worker :: run_worker :: s). split; [runs_only|].
    simpl. unfold step, caller_step, valid. simpl. rewrite bool_decide_refl. simpl.
    exact Hs.
  - destruct (Hrun k _ ret so se (or_introl eq_refl)) as (s & Hnw & Hs).
    exists (run_caller :: run_worker :: s). split; [runs_only|].
    simpl. unfold step, caller_step, valid. simpl. rewrite bool_decide_refl. simpl.
    exact Hs.
  - destruct (Hrun k _ ret so se (or_introl eq_refl)) as (s & Hnw & Hs).
    exists (run_caller :: run_worker :: s). split; [runs_only|].
    simpl. unfold step, caller_step, valid. simpl. rewrite bool_decide_refl. simpl.
    exact Hs.
  - exists [run_caller]. split; [runs_only|].
    simpl. unfold step, caller_step, valid. simpl. rewrite bool_decide_refl.
    reflexivity.
Qed.

(** The consumer can always be scheduled to the end of its calls. *)
Lemma script_completes E script : forall c,
  inv E c -> caller c = c_ready script ->
  exists s, no_spurious_wake s /\ caller (exec s c) = c_ready [].
Proof.
  induction script as [|call rest IH]; intros c Hinv Hc.
  - exists []. split; [constructor|exact Hc].
  - destruct (call_completes E c call rest Hinv Hc) as (s1 & Hn1 & H1).
    destruct (IH (exec s1 c) (inv_exec E s1 c Hinv) H1) as (s2 & Hn2 & H2).
    exists (s1 ++ s2). split; [apply no_spurious_wake_app; assumption|].
    rewrite exec_app. exact H2.
Qed.

(** A call of [generator_next] that is in progress can be scheduled to
    its return. *)
Lemma call_in_progress_completes E c d rest :
  inv E c -> waits_unready c ->
  caller c = c_next_wait d rest \/ caller c = c_next_woken d rest ->
  exists s, no_spurious_wake s /\ caller (exec s c) = c_ready rest.
Proof.
  destruct c as [a [uf ud yv st vr sd] lv wk cl ret cr so se].
  intros Hinv HJ Hc. simpl in Hc. unfold waits_unready in HJ. simpl in HJ.
  assert (Hrun : forall k sd0,
            exists s, no_spurious_wake s /\ caller (exec s
              (mk_system a (mk_generator uf ud yv GEN_RUNNING false sd0)
                 true (w_user k) cl ret false so se)) = c_ready rest).
  { intros. eapply user_completes; simpl; eauto. }
  unfold inv in Hinv. simpl in Hinv. destruct Hinv as (-> & -> & H).
  destruct Hc as [-> | ->]; destruct H as (ds & -> & H);
    destruct wk as [| | | |k|k|k| | |]; try contradiction;
    repeat match goal with
           | H : _ /\ _ |- _ => destruct H
           | H : _ \/ _ |- _ => destruct H
           end; subst; try discriminate.
  all: try (destruct (Hrun (uf ud) true) as (s & Hnw & Hs);
            first [ exists (run_worker :: run_worker :: s);
                    split; [runs_only|exact Hs]
                  | exists (run_worker :: s); split; [runs_only|exact Hs] ]).
  all: try (destruct (Hrun k true) as (s & Hnw & Hs);
            first [ exists s; split; [runs_only|exact Hs]
                  | exists (run_worker :: s); split; [runs_only|exact Hs] ]).
  all: try (exists [run_worker; run_caller]; split; [runs_only|reflexivity]).
  all: try (exists [run_caller]; split; [runs_only|reflexivity]).
Qed.

(** From every state of a generator consumed by calls of [generator_next]
    the consumer can be scheduled to the end of its calls, without a
    spurious wake-up. *)
Lemma consumer_completes E c :
  inv E c -> waits_unready c ->
  exists s, no_spurious_wake s /\ caller (exec s c) = c_ready [].
Proof.
  intros Hinv HJ.
  destruct (caller c) as [script|d rest|d rest|?|?|?] eqn:Hc.
  - eapply script_completes; eauto.
  - destruct (call_in_progress_completes E c d rest Hinv HJ (or_introl Hc))
      as (s1 & Hn1 & H1).
    destruct (script_completes E rest (exec s1 c) (inv_exec E s1 c Hinv) H1)
      as (s2 & Hn2 & H2).
    exists (s1 ++ s2). split; [apply no_spurious_wake_app; assumption|].
    rewrite exec_app. exact H2.
  - destruct (call_in_progress_completes E c d rest Hinv HJ (or_intror Hc))
      as (s1 & Hn1 & H1).
    destruct (script_completes E rest (exec s1 c) (inv_exec E s1 c Hinv) H1)
      as (s2 & Hn2 & H2).
    exists (s1 ++ s2). split; [apply no_spurious_wake_app; assumption|].
    rewrite exec_app. exact H2.
  - destruct Hinv as (_ & _ & H). rewrite Hc in H. contradiction.
  - destruct Hinv as (_ & _ & H). rewrite Hc in H. contradiction.
  - destruct Hinv as (_ & _ & H). rewrite Hc in H. contradiction.
Qed.

Lemma reachable_inv c : reachable c -> exists E, inv E c.
Proof.
  intros (f & ud & a & ds & s & ->).
  exists (expected 0 (yielded_values (f ud)) ds).
  apply inv_exec, inv_spawn.
Qed.


(** The results of a generator consumed by calls of [generator_next]:
    in every run those returned so far are the first of [expected], and
    some run returns them all. *)
Lemma threaded_results a (f : U -> code) (ud : U) ds :
  let c0 := spawn a (created f ud) (nexts a ds) in
  let E := expected 0 (yielded_values (f ud)) ds in
  (forall s, exists rest, E = returned (exec s c0) ++ rest) /\
  (forall s, caller (exec s c0) = c_ready [] -> returned (exec s c0) = E) /\
  (forall s, crashed (exec s c0) = false) /\
  (exists s, caller (exec s c0) = c_ready [] /\ returned (exec s c0) = E).
Proof.
  intros c0 E. pose proof (inv_spawn a f ud ds) as H0. fold c0 E in H0.
  repeat split.
  - intros s. apply inv_returned, inv_exec, H0.
  - intros s. apply inv_complete, inv_exec, H0.
  - intros s. apply (inv_exec E s c0 H0).
  - destruct (script_completes E (nexts a ds) c0 H0 eq_refl) as (s & _ & Hs).
    exists s. split; [exact Hs|]. apply inv_complete; [apply inv_exec, H0|exact Hs].
Qed.

Ltac unfold_setters :=
  unfold set_worker, set_gen, set_caller, set_live, add_returned, crash, print,
    set_state, set_value_ready, set_yielded_value, set_started in *.




Lemma destroy_inv_step j e c c' :
  destroy_inv j c -> step e c = Some c' -> destroy_inv j c'.
Proof.
  destruct c as [a [uf ud yv st vr sd] lv wk cl ret cr so se].
  unfold destroy_inv, released, quiescent, step, caller_step, worker_step,
    initial_loop, signal_cond_next, signal_cond_yield, valid.
  unfold_setters. simpl. intros (-> & H) Hstep.
  destruct j;
    destruct cl as [[|[[l|] d|[l|]] [|? ?]]|d script|d script|[|? ?]|[|? ?]|[|? ?]];
    try contradiction; destruct e; simpl in Hstep; try discriminate.
  all: destruct wk as [| | | |[|v k|f|[] p k]|k|k| | |];
    try contradiction; try discriminate; break;
    rewrite ?bool_decide_refl in *; simpl in *; break; auto.
  all: repeat split; auto.
Qed.

Lemma destroy_inv_exec j s : forall c, destroy_inv j c -> destroy_inv j (exec s c).
Proof.
  induction s as [|e s IH]; intros c Hinv; simpl; [exact Hinv|].
  apply IH. destruct (step e c) eqn:Hstep; simpl; [|exact Hinv].
  eapply destroy_inv_step; eauto.
Qed.

Lemma exec_cons_step e s c c' : step e c = Some c' -> exec (e :: s) c = exec s c'.
Proof. intros H. cbn [exec]. rewrite H. reflexivity. Qed.

(** One schedule without spurious wake-ups takes [generator_destroy] to
    its end from wherever it is: the signal of the call wakes the worker,
    which finds the generator finished and exits, and the join returns. *)
Lemma destroy_completes j c :
  destroy_inv j c ->
  caller (exec [run_caller; run_caller; run_worker; run_caller; run_caller] c)
  = c_ready [].
Proof.
  destruct c as [a [uf ud yv st vr sd] lv wk cl ret cr so se].
  intros H. unfold destroy_inv, released, quiescent in H. simpl in H.
  destruct H as (-> & H).
  destruct j;
    destruct cl as [[|[[l|] d|[l|]] [|? ?]]|d script|d script|[|? ?]|[|? ?]|[|? ?]];
    try contradiction;
    destruct wk; try contradiction;
    repeat match goal with H : _ /\ _ |- _ => destruct H end;
    subst; try discriminate; try contradiction; try reflexivity.
  all: erewrite exec_cons_step;
    [|unfold step, caller_step, valid; simpl; rewrite bool_decide_refl;
      simpl; reflexivity];
    reflexivity.
Qed.

Lemma destroy_schedule_runs_only :
  no_spurious_wake [run_caller; run_caller; run_worker; run_caller; run_caller].
Proof. runs_only. Qed.

(** A quiescent generator whose consumer calls [generator_destroy] next
    satisfies the invariant of the call. *)
Lemma quiescent_destroy_inv c :
  quiescent c -> caller c = c_ready [call_destroy (Some (addr c))] ->
  destroy_inv (negb (is_finished (state (gen c)))) c.
Proof.
  intros Hq Hc. unfold destroy_inv. rewrite Hc.
  split; [apply Hq|]. split; [reflexivity|]. split; [exact Hq|reflexivity].
Qed.

(** [generator_destroy] on a quiescent generator: no run crashes; some run
    without spurious wake-ups takes the call to its return; and when it
    has returned the block is freed, and the worker thread has been joined
    if the generator was not finished, and is left exited and not joined
    if it was. *)
Lemma destroy_quiescent c :
  quiescent c -> caller c = c_ready [call_destroy (Some (addr c))] ->
  (forall s, crashed (exec s c) = false) /\
  (forall s, caller (exec s c) = c_ready [] ->
             live (exec s c) = false /\
             worker (exec s c) = released (negb (is_finished (state (gen c))))) /\
  (exists s, no_spurious_wake s /\ caller (exec s c) = c_ready []).
Proof.
  intros Hq Hc.
  pose proof (quiescent_destroy_inv c Hq Hc) as H0.
  repeat split.
  - intros s. apply (destroy_inv_exec _ s c H0).
  - pose proof (destroy_inv_exec _ s c H0) as [_ Hs]. rewrite H in Hs. apply Hs.
  - pose proof (destroy_inv_exec _ s c H0) as [_ Hs]. rewrite H in Hs. apply Hs.
  - eexists. split; [apply destroy_schedule_runs_only|].
    eapply destroy_completes, H0.
Qed.

(** Between two calls of a consumer that only calls [generator_next], the
    worker has not started yet or the generator is quiescent. *)
Lemma inv_quiescent E c script :
  inv E c -> caller c = c_ready script ->
  (worker c = w_entry /\ state (gen c) = GEN_SUSPENDED) \/ quiescent c.
Proof.
  destruct c as [a [uf ud yv st vr sd] lv wk cl ret cr so se].
  unfold inv, quiescent. simpl. intros (-> & -> & H) ->.
  destruct H as (ds & _ & H).
  destruct wk; try contradiction; break; auto 10.
Qed.

End WithUserData.

End ThreadedFacts.

(** ** More properties of the threaded backend *)

Module ThreadedMoreFacts.
Import Threaded ThreadedDefs ThreadedFacts ThreadedMore.

Section WithUserData.

Context {U : Type}.
Implicit Types (c : system U) (g : generator U).

Ltac unfold_all :=
  unfold with_tail, then_calls, step, caller_step, worker_step, next_loop,
    initial_loop, signal_cond_yield, signal_cond_next, yield_publish, valid,
    set_worker, set_gen, set_caller, set_live, add_returned, crash, print,
    set_state, set_value_ready, set_yielded_value, set_started in *.

(** A step of a system whose consumer has more calls to make afterwards is
    the same step of the system without them, unless it is the consumer
    that starts on them. *)
Lemma step_with_tail tail e c :
  ~ (e = run_caller /\ caller c = c_ready []) ->
  step e (with_tail tail c) = with_tail tail <$> step e c.
Proof.
  destruct c as [a [uf ud yv st vr sd] lv wk cl ret cr so se].
  intros Hno. unfold_all. cbn.
  destruct cr; [reflexivity|].
  destruct e; cbn.
  - destruct cl as [[|[[l|] d|[l|]] script]|d script|d script|?|?|?]; cbn;
      try reflexivity;
      try (exfalso; apply Hno; split; reflexivity);
      repeat match goal with
             | |- context [bool_decide ?P] => destruct (bool_decide P)
             end;
      destruct lv, st, vr, sd; cbn; try reflexivity; destruct wk; reflexivity.
  - destruct wk as [| | | |[|v k|f|[] p k]|k|k| | |], lv, st, sd, cl; reflexivity.
  - destruct cl; reflexivity.
  - destruct wk; reflexivity.
Qed.

(** A run of a system whose consumer has more calls to make afterwards is
    the run of the system without them, up to the step at which the
    consumer starts on them. *)
Lemma exec_with_tail tail s : forall c,
  exec s (with_tail tail c) = with_tail tail (exec s c) \/
  exists s1 s2,
    s = s1 ++ run_caller :: s2 /\ caller (exec s1 c) = c_ready [] /\
    exec s1 (with_tail tail c) = with_tail tail (exec s1 c).
Proof.
  induction s as [|e s IH]; intros c; [left; reflexivity|].
  assert (Hdec : (e = run_caller /\ caller c = c_ready []) \/
                 ~ (e = run_caller /\ caller c = c_ready [])).
  { destruct e; try (right; intros [? ?]; discriminate).
    destruct (caller c) as [[|? ?]|? ?|? ?|?|?|?];
      try (right; intros [? ?]; discriminate).
    left. auto. }
  destruct Hdec as [[-> Hc]|Hno].
  { right. exists [], s. auto. }
  assert (Hd : forall o : option (system U),
             default (with_tail tail c) (with_tail tail <$> o)
             = with_tail tail (default c o)) by (intros [?|]; reflexivity).
  cbn [exec]. rewrite (step_with_tail tail e c Hno), Hd.
  destruct (IH (default c (step e c))) as [H|(s1 & s2 & -> & H1 & H2)];
    [left; exact H|right].
  exists (e :: s1), s2. split; [reflexivity|]. cbn [exec].
  rewrite (step_with_tail tail e c Hno), Hd. auto.
Qed.

Ltac break1 :=
  repeat match goal with
         | H : _ /\ _ |- _ => destruct H
         | H : exists _, _ |- _ => destruct H
         | H : False |- _ => destruct H
         | H : _ \/ _ |- _ => destruct H
         | H : Some _ = Some _ |- _ => injection H as H
         | H : nexts _ ?ds = _ :: _ |- _ => is_var ds; destruct ds; simpl in H
         | H : _ :: _ = nexts _ ?ds |- _ => is_var ds; destruct ds; simpl in H
         | H : nexts _ ?ds = [] |- _ => is_var ds; destruct ds; simpl in H
         | H : [] = nexts _ ?ds |- _ => is_var ds; destruct ds; simpl in H
         | H : _ :: _ = _ :: _ |- _ => injection H as ? ?
         | H : call_next _ _ = call_next _ _ |- _ => injection H as ? ?
         end; subst; simpl in *; try discriminate.

Ltac break := break1; repeat (progress break1).

(** The count of the values taken is kept by every step of a generator
    that is consumed by calls of [generator_next]. *)
Lemma counted_step E ys e c c' :
  inv E c -> counted ys c -> step e c = Some c' -> counted ys c'.
Proof.
  destruct c as [a [uf ud yv st vr sd] lv wk cl ret cr so se].
  unfold inv, counted, whole. unfold_all. cbn.
  intros (-> & -> & H) (Hw & HM) Hstep.
  destruct e; cbn in Hstep.
  - destruct cl as [[|[[l|] d|[l|]] script]|d script|d script|?|?|?];
      try contradiction; try discriminate; break;
      rewrite ?bool_decide_refl in *; cbn in *;
      destruct wk; try contradiction; break;
      repeat match goal with
             | H : context [if ?b then _ else _] |- _ => destruct b; break
             end;
      cbn; rewrite ?length_app; cbn; split; auto; lia.
  - destruct wk as [| | | |[|v k|f|[] p k]|k|k| | |]; try discriminate;
      destruct cl; try contradiction; break;
      repeat match goal with
             | H : context [if ?b then _ else _] |- _ => destruct b; break
             end;
      cbn; split; auto; try lia.
  - destruct cl; try discriminate; break. cbn. auto.
  - destruct wk; try discriminate; destruct cl; try contradiction; break;
      cbn; split; auto.
Qed.

Lemma counted_exec E ys s : forall c,
  inv E c -> counted ys c -> counted ys (exec s c).
Proof.
  induction s as [|e s IH]; intros c Hinv HM; cbn [exec]; [exact HM|].
  destruct (step e c) eqn:Hstep; [|apply IH; assumption].
  apply IH; [eapply inv_step; eauto|eapply counted_step; eauto].
Qed.

Lemma counted_spawn a (f : U -> code) (ud : U) script :
  counted (yielded_values (f ud)) (spawn a (created f ud) script).
Proof. split; reflexivity. Qed.

(** What a step of [generator_destroy] leaves as it was: the results of the
    consumer, the value of the generator and the two streams; the worker is
    not in the user function. *)
Lemma destroy_step_frame j e c c' :
  destroy_inv j c -> step e c = Some c' ->
  returned c' = returned c /\ stdout c' = stdout c /\ stderr c' = stderr c /\
  yielded_value (gen c') = yielded_value (gen c).
Proof.
  destruct c as [a [uf ud yv st vr sd] lv wk cl ret cr so se].
  unfold destroy_inv, released, quiescent. unfold_all. cbn. intros (-> & H) Hstep.
  destruct j;
    destruct cl as [[|[[l|] d|[l|]] [|? ?]]|d script|d script|[|? ?]|[|? ?]|[|? ?]];
    try contradiction; destruct e; cbn in Hstep; try discriminate.
  all: destruct wk as [| | | |[|v k|f|[] p k]|k|k| | |];
    try contradiction; try discriminate; break;
    rewrite ?bool_decide_refl in *; cbn in *; break; auto.
Qed.

Lemma destroy_exec_frame j s : forall c,
  destroy_inv j c ->
  returned (exec s c) = returned c /\ stdout (exec s c) = stdout c /\
  stderr (exec s c) = stderr c /\
  yielded_value (gen (exec s c)) = yielded_value (gen c) /\
  worker_active (worker (exec s c)) = false.
Proof.
  induction s as [|e s IH]; intros c Hinv; cbn [exec].
  - repeat split. destruct Hinv as [_ H]. unfold quiescent, released in H. revert H.
    destruct j;
      destruct (caller c) as [[|[|[|]] [|]]| | |[|]|[|]|[|]]; try contradiction;
      destruct (worker c); cbn; intros H; try reflexivity; exfalso;
      intuition congruence.
  - destruct (step e c) eqn:Hstep; cbn [default]; [|apply IH; exact Hinv].
    destruct (destroy_step_frame j e c s0 Hinv Hstep) as (H1 & H2 & H3 & H4).
    destruct (IH s0 (destroy_inv_step j e c s0 Hinv Hstep)) as (H5 & H6 & H7 & H8 & H9).
    change (id s0) with s0. rewrite H5, H6, H7, H8. auto.
Qed.

Lemma step_addr e c c' : step e c = Some c' -> addr c' = addr c.
Proof.
  destruct c as [a [uf ud yv st vr sd] lv wk cl ret cr so se].
  unfold_all. cbn. destruct cr; [discriminate|].
  destruct e.
  - destruct cl as [[|[[l|] d|[l|]] script]|d script|d script|?|?|?];
      try discriminate;
      repeat match goal with
             | |- context [bool_decide ?P] => destruct (bool_decide P)
             end;
      destruct lv, st, vr, sd; cbn; try discriminate;
      try (intros H; injection H as <-; reflexivity);
      destruct wk; try discriminate; intros H; injection H as <-; reflexivity.
  - destruct wk as [| | | |[|v k|f|[] p k]|k|k| | |], lv, st, sd, cl;
      try discriminate; intros H; injection H as <-; reflexivity.
  - destruct cl; try discriminate; intros H; injection H as <-; reflexivity.
  - destruct wk; try discriminate; intros H; injection H as <-; reflexivity.
Qed.

Lemma exec_addr s : forall c, addr (exec s c) = addr c.
Proof.
  induction s as [|e s IH]; intros c; cbn [exec]; [reflexivity|].
  rewrite IH. destruct (step e c) eqn:Hstep; [|reflexivity].
  exact (step_addr e c s0 Hstep).
Qed.

(** The user function runs only while the consumer is inside
    [generator_next]. *)
Lemma inv_alternation E c :
  inv E c -> worker_active (worker c) = true ->
  consumer_in_next (caller c) = true /\
  state (gen c) = GEN_RUNNING /\ value_ready (gen c) = false.
Proof.
  intros (_ & _ & H) Hact.
  destruct (caller c); try contradiction; destruct H as (ds & _ & H);
    destruct (worker c); try discriminate; try contradiction;
    cbn; intuition.
Qed.

(** When the last call of [generator_next] of a consumer that makes one at
    least has returned, [generator_destroy] can be called; it will have to
    join the worker exactly when the user function has yielded as many
    values as there were calls. *)
Lemma ready_for_destroy E ys c :
  inv E c -> counted ys c -> E <> [] -> caller c = c_ready [] ->
  returned c = E /\
  destroy_inv (length E <=? length ys)%nat
    (with_tail [call_destroy (Some (addr c))] c).
Proof.
  intros Hinv HM HE Hc.
  pose proof (inv_complete E c Hinv Hc) as Hret.
  split; [exact Hret|].
  assert (Hlen : length E <> 0%nat) by (destruct E; [congruence|discriminate]).
  destruct (inv_quiescent E c [] Hinv Hc) as [[Hw _]|Hq].
  { exfalso. destruct HM as (_ & HM). rewrite Hc, Hw, Hret in HM. exact (Hlen HM). }
  destruct Hinv as (_ & Hcr & _).
  unfold destroy_inv, with_tail. cbn. rewrite Hc. cbn.
  split; [exact Hcr|]. split; [reflexivity|]. split; [exact Hq|].
  destruct HM as (_ & HM). rewrite Hc, Hret in HM.
  destruct Hq as (_ & _ & _ & Hq). revert HM Hq.
  destruct (worker c); try contradiction; intros HM ->; cbn.
  all: cbv zeta in HM;
    first [apply Nat.leb_le; lia | apply Nat.leb_gt; lia].
Qed.

Lemma expected_not_nil last ys d ds : expected last ys (d :: ds) <> [].
Proof. destruct ys; discriminate. Qed.

Lemma length_expected ds : forall last ys, length (expected last ys ds) = length ds.
Proof.
  induction ds as [|d ds IH]; intros last ys; [reflexivity|].
  destruct ys; cbn; rewrite IH; reflexivity.
Qed.

(** The whole life of a generator of the threaded backend: created,
    consumed by one call of [generator_next] at least, and destroyed. *)
Lemma nexts_then_destroy a (f : U -> code) (ud : U) d ds :
  let c0 := spawn a (created f ud) (nexts a (d :: ds) ++ [call_destroy (Some a)]) in
  let ys := yielded_values (f ud) in
  let E := expected 0 ys (d :: ds) in
  forall s,
    crashed (exec s c0) = false /\
    (exists rest, E = returned (exec s c0) ++ rest) /\
    (caller (exec s c0) = c_ready [] ->
     returned (exec s c0) = E /\ live (exec s c0) = false /\
     worker (exec s c0) = released (length (d :: ds) <=? length ys)%nat) /\
    (exists s', no_spurious_wake s' /\ caller (exec s' (exec s c0)) = c_ready []).
Proof.
  intros c0 ys E.
  set (tail := [call_destroy (Some a)]).
  set (c1 := spawn a (created f ud) (nexts a (d :: ds))).
  change c0 with (with_tail tail c1).
  assert (Hinv : forall s, inv E (exec s c1)).
  { intros s. apply inv_exec, inv_spawn. }
  assert (HM : forall s, counted ys (exec s c1)).
  { intros s. apply (counted_exec E); [apply inv_spawn|apply counted_spawn]. }
  assert (HJ : forall s, waits_unready (exec s c1)).
  { intros s. apply waits_unready_exec. exact I. }
  assert (HE : E <> []) by apply expected_not_nil.
  assert (HlenE : length E = length (d :: ds)) by apply length_expected.
  assert (Hdestroy : forall s1 s2,
            caller (exec s1 c1) = c_ready [] ->
            let c2 := exec s2 (with_tail tail (exec s1 c1)) in
            crashed c2 = false /\ returned c2 = E /\
            (caller c2 = c_ready [] ->
             live c2 = false /\
             worker c2 = released (length (d :: ds) <=? length ys)%nat) /\
            (exists s', no_spurious_wake s' /\ caller (exec s' c2) = c_ready [])).
  { intros s1 s2 Hc c2.
    destruct (ready_for_destroy E ys (exec s1 c1) (Hinv s1) (HM s1) HE Hc) as (Hret & Hd).
    rewrite exec_addr in Hd. change (addr c1) with a in Hd. fold tail in Hd.
    rewrite HlenE in Hd.
    pose proof (destroy_inv_exec _ s2 _ Hd) as Hd2. fold c2 in Hd2.
    destruct (destroy_exec_frame _ s2 _ Hd) as (Hr & _). fold c2 in Hr.
    split; [apply Hd2|]. split; [rewrite Hr; exact Hret|]. split.
    - intros Hc2. destruct Hd2 as (_ & Hd2). rewrite Hc2 in Hd2. exact Hd2.
    - eexists. split; [apply destroy_schedule_runs_only|].
      eapply destroy_completes, Hd2. }
  intros s.
  destruct (exec_with_tail tail s c1) as [Hs|(s1 & s2 & -> & Hc & Hs)].
  - rewrite Hs. pose proof (Hinv s) as Hi.
    split; [apply Hi|]. split; [apply (inv_returned E (exec s c1) Hi)|]. split.
    + unfold with_tail. cbn. destruct (caller (exec s c1)) as [[|? ?]| | | | |];
        discriminate.
    + destruct (consumer_completes E (exec s c1) Hi (HJ s)) as (s' & Hn' & Hs').
      destruct (exec_with_tail tail s' (exec s c1)) as [Ht|(s1 & s2 & -> & Hc & Ht)].
      * rewrite <- exec_app in Hs'.
        destruct (Hdestroy (s ++ s') [] Hs') as (_ & _ & _ & s'' & Hn'' & H).
        exists (s' ++ s''). split; [apply no_spurious_wake_app; assumption|].
        rewrite exec_app, Ht, <- exec_app. exact H.
      * rewrite <- exec_app in Hc.
        destruct (Hdestroy (s ++ s1) [] Hc) as (_ & _ & _ & s'' & Hn'' & H).
        exists (s1 ++ s''). split.
        { apply no_spurious_wake_app; [|assumption].
          apply Forall_app in Hn'. apply Hn'. }
        rewrite exec_app, Ht, <- exec_app. exact H.
  - rewrite exec_app, Hs.
    destruct (Hdestroy s1 (run_caller :: s2) Hc) as (H1 & H2 & H3 & H4).
    split; [exact H1|]. split; [exists []; rewrite H2, app_nil_r; reflexivity|].
    split; [|exact H4]. intros H. split; [exact H2|apply H3, H].
Qed.

End WithUserData.

End ThreadedMoreFacts.

(** ** More properties of [bst_pthread.c] *)

Module BstPthreadFacts.
Import Threaded ThreadedFacts BstPthread.

Lemma repeat_run_worker_S n (c : system TreeNode) :
  exec (repeat run_worker (S n)) c
  = exec [run_worker] (exec (repeat run_worker n) c).
Proof.
  rewrite <- exec_app. f_equal.
  induction n as [|n IH]; [reflexivity|]. cbn [repeat app]. f_equal. exact IH.
Qed.

(** Entered when the generator is finished, the helper goes down the left
    spine of the tree and returns to its caller. *)
Lemma helper_unwinds_finished t : forall k (c : system TreeNode),
  live c = true -> crashed c = false -> state (gen c) = GEN_FINISHED ->
  worker c = w_user (inorder_recursive_helper t k) ->
  exists n, exec (repeat run_worker n) c = set_worker (w_user k) c.
Proof.
  induction t as [|data l IHl r IHr]; intros k c Hlive Hcr Hst Hw.
  - exists 0%nat. destruct c. cbn in *. subst. reflexivity.
  - cbn [inorder_recursive_helper] in Hw.
    destruct (IHl _ c Hlive Hcr Hst Hw) as (n & Hn).
    exists (S n). rewrite repeat_run_worker_S, Hn.
    destruct c as [a g lv wk cl ret cr so se]. cbn in *. subst.
    unfold step, worker_step. cbn. rewrite Hst. reflexivity.
Qed.

End BstPthreadFacts.

(** ** The properties of the design document *)

(** C1, as stated, fails on the stackful backend: not every run returns
    every value. When the [swapcontext] of [yield] fails, the call in
    progress returns the value with the flag [true] and the user function
    runs on with its later calls of [yield] rejected: of the values 7 and 8
    the consumer is given 7 as the last value of a finished generator, and
    never 8. And a generator whose stack is too small for its user
    function has no defined result at all. *)
Lemma values_are_skipped_when_a_switch_fails :
  yielded_values (Examples.yield_two tt) = [7; 8] /\
  (exists w,
     Stackful.bind
       (Stackful.generator_create (Some Examples.yield_two) tt 0
          (Examples.empty_failing [false; false; false; false; true]))
       (fun gen w => Stackful.drive gen [Some false; Some false; Some false] w)
     = Stackful.Ok [(7, Some true); (7, Some true); (7, Some true)] w) /\
  Stackful.bind
    (Stackful.generator_create (Some Examples.yield_two) tt 1 Examples.empty)
    (fun gen w => Stackful.drive gen [Some false] w)
  = Stackful.Undefined.
Proof.
  split; [reflexivity|]. split; [eexists|]; vm_compute; reflexivity.
Qed.

(** C1, amended. Ordering: the calls of [generator_next] return the values
    that the user function gives to [yield], in order, one value per call,
    none of them twice and none skipped, and then report the end. On the
    stackful backend this is what a consumer gets in a process where no
    libc call fails and the stack of the generator is enough for its user
    function. On the threaded backend it holds in every run: the results
    returned so far are always the first of the expected ones, a consumer
    that has made all its calls has them all, and some run takes it there.
    The values reported with [finished == false] are then exactly the
    yielded values. *)
Theorem next_returns_yielded_values_in_order :
  (forall (U : Type) (f : U -> code) (ud : U) (size : Z) (w : Stackful.world U)
          (ds : list (option bool)),
     0 <= size -> Stackful.libc_fails w = [] ->
     StackfulDefs.stack_fits (Stackful.stack_need w)
       (StackfulDefs.chosen_stack_size size) (f ud) ->
     exists l w1 w2,
       Stackful.generator_create (Some f) ud size w = Stackful.Ok (Some l) w1 /\
       Stackful.drive (Some l) ds w1
         = Stackful.Ok (expected 0 (yielded_values (f ud)) ds) w2) /\
  (forall (U : Type) (f : U -> code) (ud : U) (a : loc) (ds : list (option bool)),
     let c0 := Threaded.spawn a (Threaded.created f ud) (Threaded.nexts a ds) in
     let E := expected 0 (yielded_values (f ud)) ds in
     (forall s, exists rest, E = Threaded.returned (Threaded.exec s c0) ++ rest) /\
     (forall s, Threaded.caller (Threaded.exec s c0) = Threaded.c_ready [] ->
                Threaded.returned (Threaded.exec s c0) = E) /\
     (exists s, Threaded.caller (Threaded.exec s c0) = Threaded.c_ready [] /\
                Threaded.returned (Threaded.exec s c0) = E)) /\
  (forall (last : Z) (ys : list Z) (n : nat),
     reported (expected last ys (repeat (Some false) (length ys + n))) = ys).
Proof.
  split; [|split].
  - intros U f ud size w ds Hsize Hok Hfit.
    destruct (StackfulFacts.generator_create_ok f ud size w Hok Hsize Hfit)
      as (l & w1 & g & Hc & Hl & Hleft & Hv & Hok1 & Hn & Hsuf).
    rewrite <- Hn in Hsuf.
    destruct (StackfulFacts.drive_has_left l ds w1 g _ Hl Hleft Hok1 Hsuf) as (w2 & Hd).
    exists l, w1, w2. rewrite Hv in Hd. auto.
  - intros U f ud a ds c0 E.
    destruct (ThreadedFacts.threaded_results a f ud ds) as (H1 & H2 & _ & H3).
    auto.
  - intros. apply reported_expected.
Qed.

(** The generator of one [yield(7)] consumed by two calls: on the stackful
    backend with the default stack in a process where a generator uses at
    most 4 KB, and on the threaded backend under an alternating
    schedule. *)
Lemma next_returns_yielded_values_in_order_witness :
  (exists l w1 w2,
     Stackful.generator_create (Some Examples.yield_seven) tt 0 Examples.empty
     = Stackful.Ok (Some l) w1 /\
     Stackful.drive (Some l) [Some false; Some false] w1
     = Stackful.Ok (expected 0 (yielded_values (Examples.yield_seven tt))
                      [Some false; Some false]) w2) /\
  Threaded.returned
    (Threaded.exec (Examples.alternate 8)
       (Examples.seven_system (Threaded.nexts 1 [Some false; Some false])))
  = [(7, Some false); (7, Some true)].
Proof.
  split.
  - refine (proj1 next_returns_yielded_values_in_order unit Examples.yield_seven tt 0
              Examples.empty [Some false; Some false] _ _ _).
    + lia.
    + reflexivity.
    + vm_compute. repeat split; discriminate.
  - apply (proj1 (proj2 (proj1 (proj2 next_returns_yielded_values_in_order)
                           unit Examples.yield_seven tt 1%positive
                           [Some false; Some false]))).
    reflexivity.
Defined.

(** C2, on the threaded backend: [yield] does not look at the state. Called
    on a generator that is suspended or finished, it stores the value, marks
    it ready and sets the state to [GEN_SUSPENDED], as it does in a running
    generator, and no message is written; a finished generator is no longer
    finished. *)
Theorem threaded_yield_stores_outside_running :
  forall (U : Type) (f : U -> code) (ud : U) (last v : Z) (ready sd : bool),
    Threaded.yield_publish v (Threaded.mk_generator f ud last GEN_SUSPENDED ready sd)
    = Threaded.mk_generator f ud v GEN_SUSPENDED true sd /\
    Threaded.yield_publish v (Threaded.mk_generator f ud last GEN_FINISHED ready sd)
    = Threaded.mk_generator f ud v GEN_SUSPENDED true sd.
Proof. intros. split; reflexivity. Qed.

(** The stackful [yield] has the test that the threaded one lacks: on a
    null pointer or on a generator that is not running it writes the message
    and returns at once, and the block is left as it was. *)
Lemma stackful_yield_rejected_outside_running :
  forall (U : Type) (w : Stackful.world U) (v : Z),
    let msg := Printf "Error: yield() called outside of a running generator context or with invalid generator.\n" [] in
    Stackful.yield None v w = Stackful.Ok Stackful.yield_rejected (Stackful.print_err msg w) /\
    forall l g, Stackful.gens w !! l = Some g -> Stackful.state g <> GEN_RUNNING ->
      Stackful.yield (Some l) v w
      = Stackful.Ok Stackful.yield_rejected (Stackful.print_err msg w) /\
      Stackful.gens (Stackful.print_err msg w) = Stackful.gens w.
Proof.
  intros U w v msg. split; [reflexivity|].
  intros l g Hl Hst. split; [|reflexivity].
  apply (StackfulFacts.yield_not_running l w g v Hl Hst).
Qed.



(** C4, as stated, fails on the stackful backend: not for every tree does
    the generator give the keys of the direct traversal. When the
    [swapcontext] of the first [yield] fails, the state checks of
    [inorder_recursive_helper] end the traversal: the first call of
    [generator_next] reports the end, and the consumer has collected
    nothing of the four keys of the valid tree of [main]. And on a stack
    that is too small for the recursion the traversal has no defined
    result. *)
Lemma generator_traversal_can_be_cut_short :
  direct_inorder Bst.valid_tree = [30; 40; 50; 70] /\
  (exists w,
     Stackful.bind
       (Stackful.generator_create (Some Bst.bst_inorder_recursive_generator)
          Bst.valid_tree (32 * 1024)
          (Examples.bst_failing [false; false; false; false; true]))
       (fun gen w => Stackful.drain 10 gen w)
     = Stackful.Ok [] w) /\
  Stackful.bind
    (Stackful.generator_create (Some Bst.bst_inorder_recursive_generator)
       Bst.valid_tree 1024 Bst.start)
    (fun gen w => Stackful.drain 10 gen w)
  = Stackful.Undefined.
Proof.
  split; [reflexivity|]. split; [eexists|]; vm_compute; reflexivity.
Qed.

(** C4, amended. Driving the in-order generator of a tree to its end gives
    the keys in the order of the direct recursive in-order traversal. On
    the stackful backend, in a process where no libc call fails and the
    stack of the generator is enough for the recursion on this tree, the
    consumer that calls [generator_next] until the end is reported
    collects [direct_inorder t], given one unit of fuel per key and one
    more. On the threaded backend, a consumer that makes one call per key
    and one more has, in every run in which its calls have returned, been
    reported [direct_inorder t], and some run takes it there. *)
Theorem inorder_generator_equals_direct_traversal :
  (forall (t : TreeNode) (size : Z) (w : Stackful.world TreeNode) (n : nat),
     0 <= size -> Stackful.libc_fails w = [] ->
     StackfulDefs.stack_fits (Stackful.stack_need w)
       (StackfulDefs.chosen_stack_size size) (Bst.bst_inorder_recursive_generator t) ->
     exists l w1 w2,
       Stackful.generator_create (Some Bst.bst_inorder_recursive_generator) t size w
       = Stackful.Ok (Some l) w1 /\
       Stackful.drain (S (length (direct_inorder t)) + n) (Some l) w1
       = Stackful.Ok (direct_inorder t) w2) /\
  (forall (t : TreeNode) (a : loc) (n : nat) (c0 : Threaded.system TreeNode),
     c0 = Threaded.spawn a
            (Threaded.created BstPthread.bst_inorder_recursive_generator t)
            (Threaded.nexts a (repeat (Some false) (length (direct_inorder t) + S n))) ->
     (forall s, Threaded.caller (Threaded.exec s c0) = Threaded.c_ready [] ->
                reported (Threaded.returned (Threaded.exec s c0)) = direct_inorder t) /\
     (exists s, Threaded.caller (Threaded.exec s c0) = Threaded.c_ready [] /\
                reported (Threaded.returned (Threaded.exec s c0)) = direct_inorder t)).
Proof.
  split.
  - intros t size w n Hsize Hok Hfit.
    destruct (StackfulFacts.generator_create_ok Bst.bst_inorder_recursive_generator
                t size w Hok Hsize Hfit)
      as (l & w1 & g & Hc & Hl & Hleft & Hv & Hok1 & Hn & Hsuf).
    rewrite yielded_values_bst_generator in Hleft. rewrite <- Hn in Hsuf.
    destruct (StackfulFacts.drain_has_left l _ n w1 g Hl Hleft Hok1 Hsuf) as (w2 & Hd).
    exists l, w1, w2. auto.
  - intros t a n c0 ->.
    destruct (ThreadedFacts.threaded_results a
                BstPthread.bst_inorder_recursive_generator t
                (repeat (Some false) (length (direct_inorder t) + S n)))
      as (_ & H2 & _ & s & H3 & H4).
    rewrite yielded_values_bst_pthread_generator in *.
    split.
    + intros s' Hs'. rewrite (H2 s' Hs'). apply reported_expected.
    + exists s. split; [exact H3|]. rewrite H4. apply reported_expected.
Qed.

(** The valid tree of [main]: on the stackful backend with the stack of
    32 KB that [bst.c] takes, in a process where a generator uses at most
    4 KB, and on the threaded backend consumed by five calls under an
    alternating schedule. *)
Lemma inorder_generator_equals_direct_traversal_witness :
  (exists l w1 w2,
     Stackful.generator_create (Some Bst.bst_inorder_recursive_generator)
       Bst.valid_tree (32 * 1024) Bst.start
     = Stackful.Ok (Some l) w1 /\
     Stackful.drain (S (length (direct_inorder Bst.valid_tree)) + 0) (Some l) w1
     = Stackful.Ok (direct_inorder Bst.valid_tree) w2) /\
  reported
    (Threaded.returned
       (Threaded.exec (Examples.alternate 40)
          (Threaded.spawn 1
             (Threaded.created BstPthread.bst_inorder_recursive_generator Bst.valid_tree)
             (Threaded.nexts 1
                (repeat (Some false) (length (direct_inorder Bst.valid_tree) + 1))))))
  = direct_inorder Bst.valid_tree.
Proof.
  split.
  - refine (proj1 inorder_generator_equals_direct_traversal Bst.valid_tree
              (32 * 1024) Bst.start 0%nat _ _ _).
    + lia.
    + reflexivity.
    + vm_compute. repeat split; discriminate.
  - apply (proj1 (proj2 inorder_generator_equals_direct_traversal Bst.valid_tree
                    1%positive 0%nat _ eq_refl) (Examples.alternate 40)).
    vm_compute. reflexivity.
Defined.

(** C5. A tree is a valid binary search tree if and only if the sequence
    of keys that its in-order generator yields is strictly increasing. For
    the tree [{50:[30:[_,60],70]}] the sequence is 30, 60, 50, 70 and
    [check_bst_property] returns [false]: it finds 60 > 30 at step 0 and
    fails at step 1 on the pair of 60 and 50. For the tree
    [{50:[30:[_,40],70]}] the sequence is 30, 40, 50, 70 and
    [check_bst_property] returns [true]. *)
Theorem valid_bst_iff_inorder_strictly_increasing :
  (forall t : TreeNode,
     valid_bst t <->
     strictly_increasing (yielded_values (Bst.bst_inorder_recursive_generator t))) /\
  (yielded_values (Bst.bst_inorder_recursive_generator Bst.invalid_tree)
   = [30; 60; 50; 70] /\
   exists w,
     Bst.check_bst_property Bst.invalid_tree Bst.start = Stackful.Ok false w /\
     Stackful.stdout w
     = [Printf "\n--- Checking BST Property ---\n" [];
        Printf "Advancing generator A once...\n" [];
        Printf "Generator A first value: %ld\n" [30];
        Printf "Starting simultaneous iteration (like zip)...\n" [];
        Printf "Step %d: Comparing A=%ld (next) with B=%ld (current)\n" [0; 60; 30];
        Printf "Check OK: %ld > %ld\n" [60; 30];
        Printf "Step %d: Comparing A=%ld (next) with B=%ld (current)\n" [1; 50; 60];
        Printf "Check FAILED: %ld <= %ld. Not strictly increasing.\n" [50; 60];
        Printf "Cleaning up generators...\n" [];
        Printf "--- Check Finished (Result: false) ---\n" []]) /\
  (yielded_values (Bst.bst_inorder_recursive_generator Bst.valid_tree)
   = [30; 40; 50; 70] /\
   exists w, Bst.check_bst_property Bst.valid_tree Bst.start = Stackful.Ok true w).
Proof.
  split; [|split].
  - intros t. rewrite yielded_values_bst_generator. apply valid_bst_inorder.
  - split; [reflexivity|]. eexists. split; vm_compute; reflexivity.
  - split; [reflexivity|]. eexists. vm_compute. reflexivity.
Qed.

(** The valid tree of [main] is a valid binary search tree. *)
Lemma valid_bst_iff_inorder_strictly_increasing_witness :
  strictly_increasing (yielded_values (Bst.bst_inorder_recursive_generator Bst.valid_tree)) /\
  valid_bst Bst.valid_tree.
Proof.
  split.
  - simpl. lia.
  - apply (proj2 (proj1 valid_bst_iff_inorder_strictly_increasing Bst.valid_tree)).
    simpl. lia.
Defined.

(** C6, as the code has it: [generator_destroy] called before the worker
    thread has taken the mutex for the first time finds [started] false and
    does not join it. The call returns with the block freed and the mutex
    and the condition variables destroyed while the worker is still at the
    start of [generator_thread_entry]; its next step uses the freed
    block. *)
Theorem destroy_before_start_leaves_worker :
  forall (U : Type) (f : U -> code) (ud : U) (a : loc),
    Threaded.caller
      (Threaded.exec [Threaded.run_caller; Threaded.run_caller]
         (Threaded.spawn a (Threaded.created f ud) [Threaded.call_destroy (Some a)]))
    = Threaded.c_ready [] /\
    Threaded.live
      (Threaded.exec [Threaded.run_caller; Threaded.run_caller]
         (Threaded.spawn a (Threaded.created f ud) [Threaded.call_destroy (Some a)]))
    = false /\
    Threaded.worker
      (Threaded.exec [Threaded.run_caller; Threaded.run_caller]
         (Threaded.spawn a (Threaded.created f ud) [Threaded.call_destroy (Some a)]))
    = Threaded.w_entry /\
    Threaded.crashed
      (Threaded.exec [Threaded.run_caller; Threaded.run_caller; Threaded.run_worker]
         (Threaded.spawn a (Threaded.created f ud) [Threaded.call_destroy (Some a)]))
    = true.
Proof.
  intros U f ud a.
  assert (H : forall s,
            Threaded.exec (Threaded.run_caller :: s)
              (Threaded.spawn a (Threaded.created f ud) [Threaded.call_destroy (Some a)])
            = Threaded.exec s
                (Threaded.mk_system a
                   (Threaded.mk_generator f ud 0 GEN_FINISHED true false)
                   true Threaded.w_entry (Threaded.c_destroy_cleanup []) [] false [] [])).
  { intros s. apply ThreadedFacts.exec_cons_step.
    unfold Threaded.step, Threaded.caller_step, Threaded.valid. simpl.
    rewrite ThreadedFacts.bool_decide_refl. reflexivity. }
  rewrite !H. repeat split.
Qed.

(** When the worker has got to its first wait before [generator_destroy]
    takes the mutex, the call wakes it and joins it, and then frees the
    block. *)
Lemma destroy_in_initial_wait :
  forall (U : Type) (f : U -> code) (ud : U) (a : loc) (c : Threaded.system U),
    c = Threaded.exec [Threaded.run_worker]
          (Threaded.spawn a (Threaded.created f ud) [Threaded.call_destroy (Some a)]) ->
    Threaded.worker c = Threaded.w_initial_wait /\
    (forall s, Threaded.crashed (Threaded.exec s c) = false) /\
    (forall s, Threaded.caller (Threaded.exec s c) = Threaded.c_ready [] ->
               Threaded.live (Threaded.exec s c) = false /\
               Threaded.worker (Threaded.exec s c) = Threaded.w_joined) /\
    (exists s, ThreadedDefs.no_spurious_wake s /\
               Threaded.caller (Threaded.exec s c) = Threaded.c_ready []).
Proof.
  intros U f ud a c ->. split; [reflexivity|].
  refine (ThreadedFacts.destroy_quiescent _ _ _); [|reflexivity].
  repeat split.
Qed.




(** C8. The Fibonacci generator of [fib_pthread.c], seeded with (1, 1),
    yields 1, 1, 2, 3, 5, 8, 13, 21, 34, 55, each value after the first two
    the sum of the two before it. A consumer that calls [generator_next]
    11 times is returned, in every run, the first of these values with the
    flag [false] and then 55 with the flag [true]; when its calls have
    returned it has them all, and some run takes it there. *)
Theorem fibonacci_first_ten_values :
  yielded_values (FibPthread.fib_generator_func tt)
  = [1; 1; 2; 3; 5; 8; 13; 21; 34; 55] /\
  (forall i : nat,
     (i < 8)%nat ->
     nth (i + 2) (yielded_values (FibPthread.fib_generator_func tt)) 0
     = nth i (yielded_values (FibPthread.fib_generator_func tt)) 0
       + nth (i + 1) (yielded_values (FibPthread.fib_generator_func tt)) 0) /\
  (forall (a : loc) (c0 : Threaded.system unit) (E : list (Z * option bool)),
     c0 = Threaded.spawn a (Threaded.created FibPthread.fib_generator_func tt)
            (Threaded.nexts a (repeat (Some false) 11)) ->
     E = [(1, Some false); (1, Some false); (2, Some false); (3, Some false);
          (5, Some false); (8, Some false); (13, Some false); (21, Some false);
          (34, Some false); (55, Some false); (55, Some true)] ->
     (forall s, exists rest, E = Threaded.returned (Threaded.exec s c0) ++ rest) /\
     (forall s, Threaded.caller (Threaded.exec s c0) = Threaded.c_ready [] ->
                Threaded.returned (Threaded.exec s c0) = E) /\
     (exists s, Threaded.caller (Threaded.exec s c0) = Threaded.c_ready [] /\
                Threaded.returned (Threaded.exec s c0) = E)).
Proof.
  split; [reflexivity|split].
  - intros i Hi.
    do 8 (destruct i as [|i]; [reflexivity|]). lia.
  - intros a c0 E -> ->.
    destruct (ThreadedFacts.threaded_results a FibPthread.fib_generator_func tt
                (repeat (Some false) 11)) as (H1 & H2 & _ & H3).
    auto.
Qed.

(** The Fibonacci generator at address 1 under an alternating schedule. *)
Lemma fibonacci_first_ten_values_witness :
  Threaded.returned (Threaded.exec (Examples.alternate 40) Examples.fib_system)
  = [(1, Some false); (1, Some false); (2, Some false); (3, Some false);
     (5, Some false); (8, Some false); (13, Some false); (21, Some false);
     (34, Some false); (55, Some false); (55, Some true)] /\
  nth (3 + 2) (yielded_values (FibPthread.fib_generator_func tt)) 0
  = nth 3 (yielded_values (FibPthread.fib_generator_func tt)) 0
    + nth (3 + 1) (yielded_values (FibPthread.fib_generator_func tt)) 0.
Proof.
  split.
  - refine (proj1 (proj2 (proj2 (proj2 fibonacci_first_ten_values) 1%positive
                            Examples.fib_system _ eq_refl eq_refl))
              (Examples.alternate 40) _).
    vm_compute. reflexivity.
  - refine (proj1 (proj2 fibonacci_first_ten_values) 3%nat _). lia.
Defined.

(** C9, as stated, fails: no stack size is rejected. The size 1 is passed
    to [malloc] as it is, and the generator is created with a stack of one
    byte. *)
Lemma absurd_stack_sizes_are_used :
  Stackful.generator_create (Some Examples.yield_seven) tt 1 Examples.empty
  = Stackful.Ok (Some 1%positive)
      (Stackful.mk_world
         {[1%positive := Stackful.mk_generator Stackful.ctx_entry (Some 2%positive) 1
                           Examples.yield_seven 0 GEN_SUSPENDED tt]}
         {[2%positive := 1]} [] [] [] (Stackful.stack_need Examples.empty)).
Proof. vm_compute. reflexivity. Qed.

(** C9, amended. For every function, user data and [size_t] stack size,
    [generator_create] takes 16 KB for the size 0 and the size itself
    otherwise. It fails only when [malloc] or [getcontext] fails, and then
    nothing is left allocated; otherwise it returns a fresh suspended
    generator with a fresh stack of exactly the size taken. When no libc
    call fails it succeeds, so no size is rejected. *)
Theorem generator_create_stack_size :
  forall (U : Type) (f : U -> code) (ud : U) (size : Z) (w : Stackful.world U),
    0 <= size < 2 ^ 64 ->
    ((exists w',
        Stackful.generator_create (Some f) ud size w = Stackful.Ok None w' /\
        Stackful.gens w' = Stackful.gens w /\ Stackful.stacks w' = Stackful.stacks w /\
        exists b, In b (firstn 3 (Stackful.libc_fails w)) /\ b = true) \/
     (exists l stk w',
        Stackful.generator_create (Some f) ud size w = Stackful.Ok (Some l) w' /\
        Stackful.gens w !! l = None /\ Stackful.stacks w !! stk = None /\ l <> stk /\
        Stackful.gens w'
        = <[l := Stackful.mk_generator Stackful.ctx_entry (Some stk)
                   (if size =? 0 then 16 * 1024 else size) f 0 GEN_SUSPENDED ud]>
            (Stackful.gens w) /\
        Stackful.stacks w'
        = <[stk := if size =? 0 then 16 * 1024 else size]> (Stackful.stacks w))) /\
    (Stackful.libc_fails w = [] ->
     exists l w', Stackful.generator_create (Some f) ud size w = Stackful.Ok (Some l) w').
Proof.
  intros U f ud size w [Hlo Hhi]. split.
  - destruct (StackfulFacts.generator_create_cases f ud size w Hlo)
      as [(w' & H)|(l & stk & w' & H1 & H2 & H3 & H4 & H5 & H6 & _)].
    + left. exists w'. exact H.
    + right. exists l, stk, w'. auto 10.
  - intros Hok.
    destruct (StackfulFacts.generator_create_cases f ud size w Hlo)
      as [(w' & _ & _ & _ & b & Hb & _)|(l & stk & w' & H & _)].
    + rewrite Hok in Hb. destruct Hb.
    + exists l, w'. exact H.
Qed.

(** The stack size 0 in a process where every libc call succeeds. *)
Lemma generator_create_stack_size_witness :
  0 <= 0 < 2 ^ 64 /\
  exists l w',
    Stackful.generator_create (Some Examples.yield_seven) tt 0 Examples.empty
    = Stackful.Ok (Some l) w'.
Proof.
  split; [lia|].
  refine (proj2 (generator_create_stack_size unit Examples.yield_seven tt 0
                   Examples.empty _) eq_refl).
  lia.
Defined.

(** C10. [generator_next] on a null pointer returns 0, writes [true] to
    [*done] when [done] is not null, and changes nothing: on the stackful
    backend the process is as it was, and on the threaded backend the call
    is one step of the consumer that leaves the block, the worker and the
    liveness of the block as they were. *)
Theorem next_on_null_pointer :
  (forall (U : Type) (w : Stackful.world U) (done : option bool),
     Stackful.generator_next None done w = Stackful.Ok (0, set_done done true) w) /\
  (forall (U : Type) (c : Threaded.system U) (done : option bool)
          (rest : list Threaded.call),
     Threaded.crashed c = false ->
     Threaded.caller c = Threaded.c_ready (Threaded.call_next None done :: rest) ->
     exists c',
       Threaded.step Threaded.run_caller c = Some c' /\
       Threaded.returned c' = Threaded.returned c ++ [(0, set_done done true)] /\
       Threaded.caller c' = Threaded.c_ready rest /\
       Threaded.gen c' = Threaded.gen c /\ Threaded.worker c' = Threaded.worker c /\
       Threaded.live c' = Threaded.live c /\ Threaded.crashed c' = false /\
       Threaded.stdout c' = Threaded.stdout c /\ Threaded.stderr c' = Threaded.stderr c).
Proof.
  split; [reflexivity|].
  intros U c done rest Hcr Hc. unfold Threaded.step, Threaded.caller_step.
  rewrite Hcr, Hc. eexists. split; [reflexivity|]. simpl. auto 10.
Qed.

(** A call on a null pointer with a [done] pointer, next to a generator of
    the threaded backend that has just been created. *)
Lemma next_on_null_pointer_witness :
  exists c',
    Threaded.step Threaded.run_caller
      (Examples.seven_system [Threaded.call_next None (Some false)]) = Some c' /\
    Threaded.returned c' = [(0, Some true)].
Proof.
  destruct (proj2 next_on_null_pointer unit
              (Examples.seven_system [Threaded.call_next None (Some false)])
              (Some false) [] eq_refl eq_refl) as (c' & H1 & H2 & _).
  exists c'. split; [exact H1|exact H2].
Defined.

(** ** Further properties of the code *)

(** X1. [generator_next] survives failed context switches. For a user
    function that gives the control back after finitely many steps, which
    is what a resumption is, on a live generator between two calls whose
    stack is enough for what is left of the function: whichever of the
    calls of [swapcontext] fail, the call returns. Afterwards the generator
    is again between two calls, its stack is still enough, it has the
    stack, the function and the user data it had, and the flag written to
    [*done] is [true] exactly when its state is [GEN_FINISHED]. The other
    blocks and all the stacks of the process are as they were. *)
Theorem generator_next_survives_failed_switches :
  forall (U : Type) (w : Stackful.world U) (l : loc) (g : Stackful.generator U)
         (d : option bool),
    Stackful.gens w !! l = Some g -> StackfulMore.between_calls g ->
    StackfulDefs.stack_suffices (Stackful.stack_need w) g ->
    exists v w' g',
      Stackful.generator_next (Some l) d w
      = Stackful.Ok (v, set_done d (is_finished (Stackful.state g'))) w' /\
      Stackful.gens w' !! l = Some g' /\
      (forall l', l' <> l -> Stackful.gens w' !! l' = Stackful.gens w !! l') /\
      Stackful.stacks w' = Stackful.stacks w /\
      StackfulMore.between_calls g' /\ StackfulMore.same_resources g g' /\
      StackfulDefs.stack_suffices (Stackful.stack_need w') g'.
Proof.
  intros U w l g d Hl Hb Hsuf.
  destruct (StackfulMoreFacts.generator_next_any l w g d Hl Hb Hsuf)
    as (v & w' & g' & E & Hg & Hs & Hb' & Hr & Hn & Hsuf').
  exists v, w', g'. split; [exact E|]. rewrite Hg, Hn.
  split; [apply lookup_insert_eq|]. split; [|auto].
  intros l' Hne. apply lookup_insert_ne. congruence.
Qed.

(** A suspended generator in a process where the switch into it fails. *)
Lemma generator_next_survives_failed_switches_witness :
  exists v w' g',
    Stackful.generator_next (Some 1%positive) (Some false)
      (MoreExamples.failing_world [true])
    = Stackful.Ok (v, set_done (Some false) (is_finished (Stackful.state g'))) w' /\
    Stackful.gens w' !! 1%positive = Some g'.
Proof.
  destruct (generator_next_survives_failed_switches unit
              (MoreExamples.failing_world [true])
              1%positive Examples.suspended_generator (Some false))
    as (v & w' & g' & E & Hg & _).
  - reflexivity.
  - split; [discriminate|]. intros H. discriminate H.
  - vm_compute. repeat split; discriminate.
  - exists v, w', g'. split; [exact E|exact Hg].
Defined.

(** X2. A failed switch into the generator is fatal for it. When the
    [swapcontext] of [generator_next] fails on a suspended generator, the
    call writes the error, returns 0 with the flag [true] and leaves the
    generator finished; its user function has not run and never will: the
    calls that follow return the value it had, with the flag [true]. *)
Theorem failed_switch_finishes_generator :
  forall (U : Type) (w : Stackful.world U) (l : loc) (g : Stackful.generator U)
         (d : option bool) (ds : list (option bool)) (rest : list bool),
    Stackful.gens w !! l = Some g -> Stackful.state g = GEN_SUSPENDED ->
    Stackful.libc_fails w = true :: rest ->
    exists w',
      Stackful.drive (Some l) (d :: ds) w
      = Stackful.Ok ((0, set_done d true)
                     :: map (fun d' => (Stackful.yielded_value g, set_done d' true)) ds)
          w' /\
      Stackful.gens w' = <[l := Stackful.set_state GEN_FINISHED g]> (Stackful.gens w) /\
      Stackful.stacks w' = Stackful.stacks w /\
      Stackful.libc_fails w' = rest /\
      Stackful.stdout w' = Stackful.stdout w /\
      Stackful.stderr w'
      = Stackful.stderr w ++ [Printf "swapcontext (caller -> generator) failed" []].
Proof.
  intros U w l g d ds rest Hl Hst Hlibc.
  destruct w as [gs ss so se lf nd]. cbn in Hl, Hlibc. subst lf.
  cbn [Stackful.drive]. unfold Stackful.generator_next at 1.
  unfold Stackful.deref at 1. cbn [Stackful.gens]. rewrite Hl.
  cbn [Stackful.bind]. rewrite Hst. cbn [is_finished].
  unfold Stackful.libc_call. cbn.
  unfold Stackful.deref at 1. cbn. rewrite lookup_insert_eq. cbn.
  erewrite StackfulFacts.drive_finished; [|cbn; apply lookup_insert_eq|reflexivity].
  cbn. eexists. split; [reflexivity|]. cbn.
  rewrite insert_insert_eq. auto 10.
Qed.

Lemma failed_switch_finishes_generator_witness :
  exists w',
    Stackful.drive (Some 1%positive) [Some false; Some false]
      (MoreExamples.failing_world [true])
    = Stackful.Ok [(0, Some true); (0, Some true)] w'.
Proof.
  destruct (failed_switch_finishes_generator unit
              (MoreExamples.failing_world [true])
              1%positive Examples.suspended_generator (Some false) [Some false] [])
    as (w' & E & _); [reflexivity|reflexivity|reflexivity|].
  exists w'. exact E.
Defined.

(** X3. A failed switch out of [yield] loses the value as a value: when the
    [swapcontext] of [yield] fails, in a generator whose stack is enough
    for its user function, the call of [generator_next] that is in
    progress returns the value just yielded, but with the flag [true], and
    the generator is finished; the user function has run to its end within
    this call, each of its later calls of [yield] rejected. *)
Theorem failed_switch_in_yield_reports_end :
  forall (U : Type) (w : Stackful.world U) (l : loc) (g : Stackful.generator U)
         (d : option bool) (y : Z) (ys : list Z) (rest : list bool),
    Stackful.gens w !! l = Some g -> StackfulDefs.has_left g (y :: ys) ->
    StackfulDefs.stack_suffices (Stackful.stack_need w) g ->
    Stackful.libc_fails w = false :: true :: rest ->
    exists w' g',
      Stackful.generator_next (Some l) d w = Stackful.Ok (y, set_done d true) w' /\
      Stackful.gens w' = <[l := g']> (Stackful.gens w) /\
      Stackful.state g' = GEN_FINISHED /\ Stackful.yielded_value g' = y.
Proof.
  intros U w l g d y ys rest Hl Hleft Hsuf Hlibc.
  destruct w as [gs ss so se lf nd]. cbn in Hl, Hlibc, Hsuf. subst lf.
  unfold Stackful.generator_next. unfold Stackful.deref at 1.
  cbn [Stackful.gens]. rewrite Hl. cbn [Stackful.bind].
  unfold StackfulDefs.has_left in Hleft. unfold StackfulDefs.stack_suffices in Hsuf.
  destruct (Stackful.state g) eqn:Hst; [contradiction| |discriminate].
  cbn [is_finished]. unfold Stackful.libc_call. cbn -[Stackful.run_on_stack].
  unfold Stackful.switch_to_generator, Stackful.deref at 1.
  cbn -[Stackful.run_on_stack]. rewrite lookup_insert_eq. cbn -[Stackful.run_on_stack].
  assert (Hres : forall k, yielded_values k = y :: ys ->
            StackfulDefs.stack_fits nd (Stackful.stack_size g) k ->
            exists w' g',
              Stackful.bind
                (Stackful.run_on_stack k l
                   (Stackful.mk_world (<[l := Stackful.set_state GEN_RUNNING g]> gs)
                      ss so se (true :: rest) nd))
                (fun _ w3 => Stackful.bind (Stackful.deref l w3) (fun g3 w4 =>
                   Stackful.Ok (Stackful.yielded_value g3,
                                set_done d (is_finished (Stackful.state g3))) w4))
              = Stackful.Ok (y, set_done d true) w' /\
              Stackful.gens w' = <[l := g']> gs /\
              Stackful.state g' = GEN_FINISHED /\ Stackful.yielded_value g' = y).
  { intros k Hk [Hneed _].
    unfold Stackful.run_on_stack, Stackful.deref at 1.
    cbn -[Stackful.resume]. rewrite lookup_insert_eq. cbn -[Stackful.resume].
    destruct (Z.leb_spec (nd k) (Stackful.stack_size g)); [|lia].
    destruct (StackfulMoreFacts.resume_yield_swap_fails k l
                (Stackful.mk_world (<[l := Stackful.set_state GEN_RUNNING g]> gs)
                   ss so se (true :: rest) nd)
                (Stackful.set_state GEN_RUNNING g) y ys rest)
      as (w' & g' & E & Hg & Hf & Hv); auto.
    { cbn. apply lookup_insert_eq. }
    rewrite E. cbn. unfold Stackful.deref. rewrite Hg, lookup_insert_eq. cbn.
    rewrite Hf, Hv. cbn. exists w', g'. split; [reflexivity|].
    cbn in Hg. rewrite insert_insert_eq in Hg. auto. }
  destruct (Stackful.context g); [| |contradiction];
    apply Hres; auto.
Qed.

Lemma failed_switch_in_yield_reports_end_witness :
  exists w' g',
    Stackful.generator_next (Some 1%positive) (Some false)
      (MoreExamples.failing_world [false; true])
    = Stackful.Ok (7, Some true) w' /\
    Stackful.gens w'
    = <[1%positive := g']> {[1%positive := Examples.suspended_generator]}.
Proof.
  destruct (failed_switch_in_yield_reports_end unit
              (MoreExamples.failing_world [false; true])
              1%positive Examples.suspended_generator (Some false) 7 [] [])
    as (w' & g' & E & Hg & _);
    [reflexivity|reflexivity|vm_compute; repeat split; discriminate|reflexivity|].
  exists w', g'. split; [exact E|exact Hg].
Defined.

(** The stack is needed: the same call on a generator whose stack of 64
    bytes is too small for its user function has no defined result, before
    [yield] is reached. *)
Lemma failed_switch_in_yield_on_a_small_stack :
  StackfulDefs.has_left
    (Stackful.mk_generator Stackful.ctx_entry (Some 2%positive) 64
       Examples.yield_seven 0 GEN_SUSPENDED tt) [7] /\
  Stackful.generator_next (Some 1%positive) (Some false)
    (MoreExamples.small_stack_world [false; true])
  = Stackful.Undefined.
Proof. split; reflexivity. Qed.

(** X4. [check_bst_property] decides valid binary search trees of at most
    101 nodes. In a process where no libc call fails and the stack of
    32 KB that the function takes for each generator is enough for the
    recursion on the tree, it returns, and it returns [true] exactly when
    the tree is a valid binary search tree with at most 101 nodes: a valid
    tree with more nodes is rejected by the safety break. Both generators
    are destroyed: the heap is as it was before the call. *)
Theorem check_bst_property_decides_valid_small_trees :
  forall (t : TreeNode) (w : Stackful.world TreeNode),
    Stackful.libc_fails w = [] ->
    StackfulDefs.stack_fits (Stackful.stack_need w) (32 * 1024)
      (Bst.bst_inorder_recursive_generator t) ->
    exists r w',
      Bst.check_bst_property t w = Stackful.Ok r w' /\
      (r = true <-> valid_bst t /\ (length (direct_inorder t) <= 101)%nat) /\
      Stackful.gens w' = Stackful.gens w /\ Stackful.stacks w' = Stackful.stacks w.
Proof.
  intros t w Hok Hfit.
  apply BstMoreFacts.check_bst_property_characterized; assumption.
Qed.

(** The valid tree of [main], in a process that has allocated nothing and
    in which a generator uses at most 4 KB of its stack. *)
Lemma check_bst_property_decides_valid_small_trees_witness :
  exists r w',
    Bst.check_bst_property Bst.valid_tree Bst.start = Stackful.Ok r w' /\
    (r = true <->
     valid_bst Bst.valid_tree /\ (length (direct_inorder Bst.valid_tree) <= 101)%nat) /\
    Stackful.gens w' = Stackful.gens Bst.start /\
    Stackful.stacks w' = Stackful.stacks Bst.start.
Proof.
  refine (check_bst_property_decides_valid_small_trees Bst.valid_tree Bst.start
            eq_refl _).
  vm_compute. repeat split; discriminate.
Defined.

(** X5. The state checks of [inorder_recursive_helper] unwind the
    recursion. Entered on a generator that is not [GEN_RUNNING], the helper
    goes down the left spine of the tree and returns to its caller: it
    yields no key of the tree, prints nothing and leaves the process as it
    found it, whatever the tree. *)
Theorem inorder_helper_unwinds_when_not_running :
  forall (t : TreeNode) (k : code) (l : loc) (w : Stackful.world TreeNode)
         (g : Stackful.generator TreeNode),
    Stackful.gens w !! l = Some g -> Stackful.state g <> GEN_RUNNING ->
    Stackful.resume (Bst.inorder_recursive_helper t k) l w = Stackful.resume k l w.
Proof.
  intros t k l w g Hl Hst. exact (BstMoreFacts.helper_unwinds t k l w g Hl Hst).
Qed.

(** The helper on the valid tree of [main], in a generator that has
    finished. *)
Lemma inorder_helper_unwinds_when_not_running_witness :
  Stackful.resume (Bst.inorder_recursive_helper Bst.valid_tree UReturn) 1%positive
    MoreExamples.finished_traversal
  = Stackful.resume UReturn 1%positive MoreExamples.finished_traversal.
Proof.
  refine (inorder_helper_unwinds_when_not_running Bst.valid_tree UReturn 1%positive
            MoreExamples.finished_traversal _ _ _).
  - reflexivity.
  - discriminate.
Defined.

(** X6. The life of a generator leaks nothing. A generator that
    [generator_create] has returned, with a stack that is enough for its
    user function, consumed by any number of calls of [generator_next] and
    then given to [generator_destroy]: whichever context switch fails, no
    call has undefined behaviour, and after [generator_destroy] the blocks
    and the stacks of the process are those it had before the creation.
    The user function is one that gives the control back after finitely
    many steps, as every resumption does: each call of [generator_next]
    then returns. *)
Theorem create_next_destroy_restores_heap :
  forall (U : Type) (f : U -> code) (ud : U) (size : Z) (ds : list (option bool))
         (w w1 : Stackful.world U) (l : loc),
    0 <= size ->
    StackfulDefs.stack_fits (Stackful.stack_need w)
      (StackfulDefs.chosen_stack_size size) (f ud) ->
    Stackful.generator_create (Some f) ud size w = Stackful.Ok (Some l) w1 ->
    exists rs w2 w3,
      Stackful.drive (Some l) ds w1 = Stackful.Ok rs w2 /\
      length rs = length ds /\
      Stackful.generator_destroy (Some l) w2 = Stackful.Ok tt w3 /\
      Stackful.gens w3 = Stackful.gens w /\ Stackful.stacks w3 = Stackful.stacks w.
Proof.
  intros U f ud size ds w w1 l Hsize Hfit Hcreate.
  exact (StackfulMoreFacts.create_drive_destroy f ud size ds w l w1 Hsize Hfit Hcreate).
Qed.

(** The generator of one [yield(7)], created with the default stack in a
    process that has allocated nothing and consumed by three calls. *)
Lemma create_next_destroy_restores_heap_witness :
  exists rs w2 w3,
    Stackful.drive (Some 1%positive) [Some false; None; Some false]
      Examples.suspended_world = Stackful.Ok rs w2 /\
    length rs = length [Some false; None; Some false] /\
    Stackful.generator_destroy (Some 1%positive) w2 = Stackful.Ok tt w3 /\
    Stackful.gens w3 = Stackful.gens Examples.empty /\
    Stackful.stacks w3 = Stackful.stacks Examples.empty.
Proof.
  refine (create_next_destroy_restores_heap unit Examples.yield_seven tt 0
            [Some false; None; Some false] Examples.empty Examples.suspended_world
            1%positive _ _ _).
  - lia.
  - vm_compute. repeat split; discriminate.
  - vm_compute. reflexivity.
Defined.

(** X7. The two threads of a generator take turns. In every state that a
    consumer of calls of [generator_next] can reach, under every schedule
    and with spurious wake-ups, the worker is in the user function, or about
    to enter or to leave it, only while the consumer is blocked in the wait
    loop of [generator_next]; the state is then [GEN_RUNNING] and no value
    is ready. So the user function and the code of the consumer between
    two calls never run at the same time. *)
Theorem user_function_runs_only_inside_next :
  forall (U : Type) (c : Threaded.system U),
    ThreadedDefs.reachable c ->
    ThreadedMore.worker_active (Threaded.worker c) = true ->
    ThreadedMore.consumer_in_next (Threaded.caller c) = true /\
    Threaded.state (Threaded.gen c) = GEN_RUNNING /\
    Threaded.value_ready (Threaded.gen c) = false.
Proof.
  intros U c Hreach Hact.
  destruct (ThreadedFacts.reachable_inv c Hreach) as (E & Hinv).
  exact (ThreadedMoreFacts.inv_alternation E c Hinv Hact).
Qed.

(** The generator of one [yield(7)] when the consumer has made its call
    and the worker has taken the mutex for the first time. *)
Lemma user_function_runs_only_inside_next_witness :
  ThreadedMore.consumer_in_next
    (Threaded.caller
       (Threaded.exec [Threaded.run_caller; Threaded.run_worker]
          (Examples.seven_system (Threaded.nexts 1 [Some false])))) = true /\
  Threaded.state
    (Threaded.gen
       (Threaded.exec [Threaded.run_caller; Threaded.run_worker]
          (Examples.seven_system (Threaded.nexts 1 [Some false])))) = GEN_RUNNING /\
  Threaded.value_ready
    (Threaded.gen
       (Threaded.exec [Threaded.run_caller; Threaded.run_worker]
          (Examples.seven_system (Threaded.nexts 1 [Some false])))) = false.
Proof.
  refine (user_function_runs_only_inside_next unit
            (Threaded.exec [Threaded.run_caller; Threaded.run_worker]
               (Examples.seven_system (Threaded.nexts 1 [Some false]))) _ _).
  - exists Examples.yield_seven, tt, 1%positive, [Some false],
      [Threaded.run_caller; Threaded.run_worker]. reflexivity.
  - vm_compute. reflexivity.
Defined.

(** X8. A consumer of calls of [generator_next] never deadlocks. From the
    state that any run has reached, whatever the schedule and the spurious
    wake-ups so far, the block is still allocated, no thread has used freed
    memory, and the two threads can go on to the return of the last call
    without any spurious wake-up: each wait that is left is ended by the
    signal of the other thread. The results are then exactly the expected
    ones. *)
Theorem next_calls_never_deadlock :
  forall (U : Type) (f : U -> code) (ud : U) (a : loc) (ds : list (option bool))
         (s : list Threaded.event),
    let c := Threaded.exec s (Threaded.spawn a (Threaded.created f ud) (Threaded.nexts a ds)) in
    Threaded.live c = true /\ Threaded.crashed c = false /\
    exists s',
      ThreadedDefs.no_spurious_wake s' /\
      Threaded.caller (Threaded.exec s' c) = Threaded.c_ready [] /\
      Threaded.returned (Threaded.exec s' c) = expected 0 (yielded_values (f ud)) ds.
Proof.
  intros U f ud a ds s c.
  assert (Hinv : ThreadedDefs.inv (expected 0 (yielded_values (f ud)) ds) c).
  { apply ThreadedFacts.inv_exec, ThreadedFacts.inv_spawn. }
  assert (HJ : ThreadedDefs.waits_unready c).
  { apply ThreadedFacts.waits_unready_exec. exact I. }
  split; [apply Hinv|]. split; [apply Hinv|].
  destruct (ThreadedFacts.consumer_completes _ c Hinv HJ) as (s' & Hn' & Hs').
  exists s'. split; [exact Hn'|]. split; [exact Hs'|].
  apply ThreadedFacts.inv_complete; [|exact Hs'].
  apply ThreadedFacts.inv_exec, Hinv.
Qed.

(** The generator of one [yield(7)] when the consumer waits in its first
    call after a spurious wake-up of the worker. *)
Lemma next_calls_never_deadlock_witness :
  exists s',
    ThreadedDefs.no_spurious_wake s' /\
    Threaded.caller
      (Threaded.exec s'
         (Threaded.exec [Threaded.run_worker; Threaded.wake_worker; Threaded.run_caller]
            (Examples.seven_system (Threaded.nexts 1 [Some false; Some false]))))
    = Threaded.c_ready [] /\
    Threaded.returned
      (Threaded.exec s'
         (Threaded.exec [Threaded.run_worker; Threaded.wake_worker; Threaded.run_caller]
            (Examples.seven_system (Threaded.nexts 1 [Some false; Some false]))))
    = expected 0 (yielded_values (Examples.yield_seven tt)) [Some false; Some false].
Proof.
  exact (proj2 (proj2 (next_calls_never_deadlock unit Examples.yield_seven tt 1%positive
                         [Some false; Some false]
                         [Threaded.run_worker; Threaded.wake_worker; Threaded.run_caller]))).
Defined.

(** X9. The whole life of a generator of the threaded backend. A consumer
    that calls [generator_next] once at least on a new generator and then
    [generator_destroy]: in every run no thread uses freed memory and the
    results returned so far are the first of the expected ones; every run
    can be continued, without spurious wake-ups, to the return of
    [generator_destroy]; and when it has returned, the consumer has all
    the expected results and the block is freed. The worker thread has
    then been joined if the user function yields at least as many values
    as there were calls; when there were more calls, so that the user
    function had returned, the thread is left exited and is never
    joined. *)
Theorem next_calls_then_destroy_clean_up :
  forall (U : Type) (f : U -> code) (ud : U) (a : loc) (d : option bool)
         (ds : list (option bool)) (s : list Threaded.event),
    let c :=
      Threaded.exec s
        (Threaded.spawn a (Threaded.created f ud)
           (Threaded.nexts a (d :: ds) ++ [Threaded.call_destroy (Some a)])) in
    let ys := yielded_values (f ud) in
    let E := expected 0 ys (d :: ds) in
    Threaded.crashed c = false /\
    (exists rest, E = Threaded.returned c ++ rest) /\
    (Threaded.caller c = Threaded.c_ready [] ->
     Threaded.returned c = E /\ Threaded.live c = false /\
     Threaded.worker c
     = if (length (d :: ds) <=? length ys)%nat
       then Threaded.w_joined else Threaded.w_exited) /\
    (exists s', ThreadedDefs.no_spurious_wake s' /\
                Threaded.caller (Threaded.exec s' c) = Threaded.c_ready []).
Proof.
  intros U f ud a d ds s. exact (ThreadedMoreFacts.nexts_then_destroy a f ud d ds s).
Qed.

(** The generator of one [yield(7)]: destroyed after one call its worker
    is joined, and destroyed after two calls, the second of which reports
    the end, its worker is left exited. *)
Lemma next_calls_then_destroy_clean_up_witness :
  Threaded.worker
    (Threaded.exec (Examples.alternate 12)
       (Examples.seven_system
          (Threaded.nexts 1 [Some false] ++ [Threaded.call_destroy (Some 1%positive)])))
  = Threaded.w_joined /\
  Threaded.worker
    (Threaded.exec (Examples.alternate 12)
       (Examples.seven_system
          (Threaded.nexts 1 [Some false; Some false]
           ++ [Threaded.call_destroy (Some 1%positive)])))
  = Threaded.w_exited.
Proof.
  split.
  - refine (proj2 (proj2 (proj1 (proj2 (proj2
              (next_calls_then_destroy_clean_up unit Examples.yield_seven tt 1%positive
                 (Some false) [] (Examples.alternate 12)))) _))).
    vm_compute. reflexivity.
  - refine (proj2 (proj2 (proj1 (proj2 (proj2
              (next_calls_then_destroy_clean_up unit Examples.yield_seven tt 1%positive
                 (Some false) [Some false] (Examples.alternate 12)))) _))).
    vm_compute. reflexivity.
Defined.

(** X10. [generator_destroy] abandons the user function. Called on a
    generator between two calls whose worker waits for the first call or
    in [yield], in no run does it let the worker go back into the user
    function: what the user function would do after its pending [yield]
    is never done. The streams, the value of the generator and the results
    of the consumer stay as they were. *)
Theorem destroy_never_resumes_user_function :
  forall (U : Type) (c : Threaded.system U) (s : list Threaded.event),
    ThreadedDefs.quiescent c ->
    Threaded.caller c = Threaded.c_ready [Threaded.call_destroy (Some (Threaded.addr c))] ->
    ThreadedMore.worker_active (Threaded.worker (Threaded.exec s c)) = false /\
    Threaded.stdout (Threaded.exec s c) = Threaded.stdout c /\
    Threaded.stderr (Threaded.exec s c) = Threaded.stderr c /\
    Threaded.yielded_value (Threaded.gen (Threaded.exec s c))
    = Threaded.yielded_value (Threaded.gen c) /\
    Threaded.returned (Threaded.exec s c) = Threaded.returned c.
Proof.
  intros U c s Hq Hc.
  pose proof (ThreadedFacts.quiescent_destroy_inv c Hq Hc) as Hd.
  destruct (ThreadedMoreFacts.destroy_exec_frame _ s c Hd) as (H1 & H2 & H3 & H4 & H5).
  auto.
Qed.

(** The generator of one [yield(7)] destroyed while its worker waits in
    [yield], in a run that takes the call to its return. *)
Lemma destroy_never_resumes_user_function_witness :
  ThreadedMore.worker_active
    (Threaded.worker
       (Threaded.exec (Examples.alternate 8) MoreExamples.waiting_in_yield)) = false /\
  Threaded.stdout (Threaded.exec (Examples.alternate 8) MoreExamples.waiting_in_yield)
  = Threaded.stdout MoreExamples.waiting_in_yield /\
  Threaded.stderr (Threaded.exec (Examples.alternate 8) MoreExamples.waiting_in_yield)
  = Threaded.stderr MoreExamples.waiting_in_yield /\
  Threaded.yielded_value
    (Threaded.gen (Threaded.exec (Examples.alternate 8) MoreExamples.waiting_in_yield))
  = Threaded.yielded_value (Threaded.gen MoreExamples.waiting_in_yield) /\
  Threaded.returned (Threaded.exec (Examples.alternate 8) MoreExamples.waiting_in_yield)
  = Threaded.returned MoreExamples.waiting_in_yield.
Proof.
  refine (destroy_never_resumes_user_function unit MoreExamples.waiting_in_yield
            (Examples.alternate 8) _ _).
  - vm_compute. repeat split.
  - vm_compute. reflexivity.
Defined.

(** X12. [check_bst_property] is safe when libc calls fail. Whatever the
    tree, when the stack of 32 KB that the function takes for each
    generator is enough for the recursion on it, and whichever of the
    calls of [malloc], [getcontext] and [swapcontext] fail, the call
    returns: it has no undefined behaviour and its loop ends, by the
    safety break at the latest. Every generator it has created is
    destroyed: the blocks and the stacks of the process are those it had
    before the call. *)
Theorem check_bst_property_returns_and_leaks_nothing :
  forall (t : TreeNode) (w : Stackful.world TreeNode),
    StackfulDefs.stack_fits (Stackful.stack_need w) (32 * 1024)
      (Bst.bst_inorder_recursive_generator t) ->
    exists r w',
      Bst.check_bst_property t w = Stackful.Ok r w' /\
      Stackful.gens w' = Stackful.gens w /\ Stackful.stacks w' = Stackful.stacks w.
Proof.
  intros t w Hfit. exact (BstMoreFacts.check_bst_property_any t w Hfit).
Qed.

(** The valid tree of [main] in a process where the [swapcontext] of the
    first [yield] of generator A fails. *)
Lemma check_bst_property_returns_and_leaks_nothing_witness :
  exists r w',
    Bst.check_bst_property Bst.valid_tree
      (Examples.bst_failing [false; false; false; false; false; false; false; true])
    = Stackful.Ok r w' /\
    Stackful.gens w'
    = Stackful.gens
        (Examples.bst_failing [false; false; false; false; false; false; false; true]) /\
    Stackful.stacks w'
    = Stackful.stacks
        (Examples.bst_failing [false; false; false; false; false; false; false; true]).
Proof.
  refine (check_bst_property_returns_and_leaks_nothing Bst.valid_tree
            (Examples.bst_failing [false; false; false; false; false; false; false; true])
            _).
  vm_compute. repeat split; discriminate.
Defined.

(** X13. The state checks of the helper of [bst_pthread.c] unwind the
    recursion. When the generator is [GEN_FINISHED] as the worker enters
    the helper on a tree, the worker takes some steps of its own, each a
    read of the state, and is back at the caller of the helper: it has
    yielded no key, and nothing else in the system has changed. *)
Theorem pthread_helper_unwinds_when_finished :
  forall (t : TreeNode) (k : code) (c : Threaded.system TreeNode),
    Threaded.live c = true -> Threaded.crashed c = false ->
    Threaded.state (Threaded.gen c) = GEN_FINISHED ->
    Threaded.worker c = Threaded.w_user (BstPthread.inorder_recursive_helper t k) ->
    exists n,
      Threaded.exec (repeat Threaded.run_worker n) c
      = Threaded.set_worker (Threaded.w_user k) c.
Proof.
  intros t k c Hlive Hcr Hst Hw.
  exact (BstPthreadFacts.helper_unwinds_finished t k c Hlive Hcr Hst Hw).
Qed.

Lemma pthread_helper_unwinds_when_finished_witness :
  exists n,
    Threaded.exec (repeat Threaded.run_worker n) MoreExamples.finished_in_helper
    = Threaded.set_worker (Threaded.w_user UReturn) MoreExamples.finished_in_helper.
Proof.
  refine (pthread_helper_unwinds_when_finished Bst.valid_tree UReturn
            MoreExamples.finished_in_helper _ _ _ _); reflexivity.
Defined.
